(** * File-metadata lookup: directory tree plus inverted index

    A shallow embedding of [mai.cpp]: the sorted posting list
    ([CompressedInvertedList]), the four attribute indexes
    ([InvertedIndex]), the directory tree ([DirectoryNode]) and the
    orchestrator ([FileSystemSimulator]), followed by the properties the
    specification states about them.

    Conventions of the embedding.
    - [int] and [long long] values are integers of [Z].  The only arithmetic
      the program performs on them is [nextFileId++].  Signed overflow is
      undefined behaviour in C++, and a two's complement machine wraps.
      [FileSystemSimulator.addFile] counts on the integers: that is the
      program on every execution that performs fewer than [2^31 - 1]
      successful adds, which is where it has a defined behaviour, and it is
      what the statements about the table, the indexes and the tree are made
      of.  [IntCounter.addFile] holds the counter in 32 bits as the machine
      does; [IntCounter_run_exact] shows that the two stores are the same
      while the counter stays below [INT_MAX].  The statements about the
      identifiers handed out and about the value of the counter are made of
      [IntCounter], with the bound they need.
    - [unordered_map<string, _>] and [unordered_map<int, _>] with values that
      are not nodes are [gmap]s.  The ordered [map<long long, _>] is a list
      of entries sorted by key, because its iterators are walked in key
      order.  The children of a node are an association list: a nested
      inductive type needs a concrete container, and the iteration order of
      an [unordered_map] is unspecified, so every statement about a traversal
      is up to permutation.
    - All operations are taken one at a time (the locks of the program
      serialise writers); the interleaving of threads is not modelled. *)

From stdpp Require Import base strings list gmap sorting pretty.
From Stdlib Require Import ZArith Lia Ascii.

Local Open Scope Z_scope.

(** ** Data model *)

Record FileMetadata := mkFileMetadata {
  fileId : Z;
  fileName : string;
  extension : string;
  fileSize : Z;
  owner : string;
  createTime : string;
  fullPath : string
}.

(** ** CompressedInvertedList: a sorted vector of file ids *)

Module CompressedInvertedList.

(** [std::lower_bound(begin, end, x)]: the position of the first element
    that is not less than [x], [length l] standing for [end()].  On a
    vector partitioned by [< x], which every sorted vector is, this is the
    iterator the binary search of the library returns. *)
Fixpoint lower_bound (l : list Z) (x : Z) : nat :=
  match l with
  | [] => 0%nat
  | y :: l' => if y <? x then S (lower_bound l' x) else 0%nat
  end.

(** [vector::insert(it, x)]. *)
Definition insert_at (it : nat) (x : Z) (l : list Z) : list Z :=
  take it l ++ x :: drop it l.

Definition addFileId (x : Z) (sortedFileIds : list Z) : list Z :=
  let it := lower_bound sortedFileIds x in
  match sortedFileIds !! it with
  | None => insert_at it x sortedFileIds
  | Some y => if y =? x then sortedFileIds else insert_at it x sortedFileIds
  end.

Definition removeFileId (x : Z) (sortedFileIds : list Z) : list Z :=
  let it := lower_bound sortedFileIds x in
  match sortedFileIds !! it with
  | None => sortedFileIds
  | Some y => if y =? x then delete it sortedFileIds else sortedFileIds
  end.

Definition getFileIds (sortedFileIds : list Z) : list Z := sortedFileIds.

Definition empty (sortedFileIds : list Z) : bool :=
  match sortedFileIds with [] => true | _ => false end.

(** The two mutators, as data, to speak about histories of one list. *)
Inductive list_op := Insert (x : Z) | Erase (x : Z).

Definition apply_op (l : list Z) (o : list_op) : list Z :=
  match o with
  | Insert x => addFileId x l
  | Erase x => removeFileId x l
  end.

Definition apply_ops (ops : list list_op) : list Z := foldl apply_op [] ops.

End CompressedInvertedList.

Import CompressedInvertedList.

(** ** InvertedIndex: four attribute indexes *)

Module InvertedIndex.

(** *** The unordered indexes ([unordered_map<string, CompressedInvertedList>]) *)

(** [index[key].addFileId(id)]: [operator[]] creates an empty list when the
    key is absent. *)
Definition um_add (key : string) (id : Z) (index : gmap string (list Z))
  : gmap string (list Z) :=
  <[key := addFileId id (default [] (index !! key))]> index.

(** [index[key].removeFileId(id); if (index[key].empty()) index.erase(key);] *)
Definition um_remove (key : string) (id : Z) (index : gmap string (list Z))
  : gmap string (list Z) :=
  let l := removeFileId id (default [] (index !! key)) in
  if empty l then delete key index else <[key := l]> index.

Definition um_query (key : string) (index : gmap string (list Z)) : list Z :=
  match index !! key with
  | Some l => getFileIds l
  | None => []
  end.

(** *** The ordered index ([map<long long, CompressedInvertedList>]):
    entries in increasing key order *)

(** [find(key)]: the search goes by key order and stops at the first key
    that is not below [key]. *)
Fixpoint om_find (key : Z) (m : list (Z * list Z)) : option (list Z) :=
  match m with
  | [] => None
  | (k, v) :: m' =>
      if k <? key then om_find key m'
      else if k =? key then Some v else None
  end.

Fixpoint om_set (key : Z) (v : list Z) (m : list (Z * list Z)) : list (Z * list Z) :=
  match m with
  | [] => [(key, v)]
  | (k, w) :: m' =>
      if k <? key then (k, w) :: om_set key v m'
      else if k =? key then (key, v) :: m' else (key, v) :: (k, w) :: m'
  end.

Fixpoint om_erase (key : Z) (m : list (Z * list Z)) : list (Z * list Z) :=
  match m with
  | [] => []
  | (k, w) :: m' =>
      if k <? key then (k, w) :: om_erase key m'
      else if k =? key then m' else (k, w) :: m'
  end.

Definition om_add (key : Z) (id : Z) (m : list (Z * list Z)) : list (Z * list Z) :=
  om_set key (addFileId id (default [] (om_find key m))) m.

Definition om_remove (key : Z) (id : Z) (m : list (Z * list Z)) : list (Z * list Z) :=
  let l := removeFileId id (default [] (om_find key m)) in
  if empty l then om_erase key (om_set key l m) else om_set key l m.

(** [map::lower_bound(key)] and [map::upper_bound(key)] as positions in the
    entry sequence; [length m] is [end()]. *)
Fixpoint map_lower_bound (key : Z) (m : list (Z * list Z)) : nat :=
  match m with
  | [] => 0%nat
  | (k, _) :: m' => if k <? key then S (map_lower_bound key m') else 0%nat
  end.

Fixpoint map_upper_bound (key : Z) (m : list (Z * list Z)) : nat :=
  match m with
  | [] => 0%nat
  | (k, _) :: m' => if k <=? key then S (map_upper_bound key m') else 0%nat
  end.

(** [for (it = lower; it != upper; ++it) result.insert(result.end(), ...)].
    [rest] is the part of the map from [it] on.  When [it] is [end()] and
    differs from [upper], the body dereferences [end()]: undefined
    behaviour, [None]. *)
Fixpoint scan (rest : list (Z * list Z)) (it upper : nat) (result : list Z)
  : option (list Z) :=
  if (it =? upper)%nat then Some result
  else match rest with
       | [] => None
       | (_, fileIds) :: rest' => scan rest' (S it) upper (result ++ getFileIds fileIds)
       end.

(** [result.erase(unique(result.begin(), result.end()), result.end())]:
    one element of every run of equal neighbours is kept. *)
Fixpoint unique (l : list Z) : list Z :=
  match l with
  | [] => []
  | x :: l' =>
      match l' with
      | [] => [x]
      | y :: _ => if x =? y then unique l' else x :: unique l'
      end
  end.

(** [std::sort] on ints: the sorted rearrangement of the vector, which is
    the same list whatever the algorithm. *)
Definition sort (l : list Z) : list Z := merge_sort Z.le l.

Record t := mk {
  extensionIndex : gmap string (list Z);
  sizeIndex : list (Z * list Z);
  ownerIndex : gmap string (list Z);
  timeIndex : gmap string (list Z)
}.

Definition empty_index : t := mk ∅ [] ∅ ∅.

Definition addFile (file : FileMetadata) (ix : t) : t :=
  mk (um_add (extension file) (fileId file) (extensionIndex ix))
     (om_add (fileSize file) (fileId file) (sizeIndex ix))
     (um_add (owner file) (fileId file) (ownerIndex ix))
     (um_add (createTime file) (fileId file) (timeIndex ix)).

Definition removeFile (file : FileMetadata) (ix : t) : t :=
  mk (um_remove (extension file) (fileId file) (extensionIndex ix))
     (om_remove (fileSize file) (fileId file) (sizeIndex ix))
     (um_remove (owner file) (fileId file) (ownerIndex ix))
     (um_remove (createTime file) (fileId file) (timeIndex ix)).

Definition queryByExtension (ext : string) (ix : t) : list Z :=
  um_query ext (extensionIndex ix).

Definition queryBySizeRange (minSize maxSize : Z) (ix : t) : option (list Z) :=
  let lower := map_lower_bound minSize (sizeIndex ix) in
  let upper := map_upper_bound maxSize (sizeIndex ix) in
  match scan (drop lower (sizeIndex ix)) lower upper [] with
  | None => None
  | Some result => Some (unique (sort result))
  end.

Definition queryByOwner (own : string) (ix : t) : list Z :=
  um_query own (ownerIndex ix).



End InvertedIndex.

(** ** DirectoryNode: the directory tree *)

(** The [parent] back-reference of the C++ node is not a field here: a node
    is only ever reached by a walk from the root, and its parent is the node
    the walk reached one step earlier (see [detach]). *)
#[local] Unset Elimination Schemes.
Inductive DirectoryNode := mkNode {
  name : string;
  isDirectory : bool;
  fileData : option FileMetadata;
  children : list (string * DirectoryNode)
}.
#[local] Set Elimination Schemes.

Module Children.

(** [children.find(key)] *)
Fixpoint find (key : string) (cs : list (string * DirectoryNode)) : option DirectoryNode :=
  match cs with
  | [] => None
  | (k, c) :: cs' => if String.eqb k key then Some c else find key cs'
  end.

(** [children[key] = node]: the entry of an existing key is overwritten,
    a new key gets a new entry. *)
Fixpoint set (key : string) (node : DirectoryNode) (cs : list (string * DirectoryNode))
  : list (string * DirectoryNode) :=
  match cs with
  | [] => [(key, node)]
  | (k, c) :: cs' => if String.eqb k key then (k, node) :: cs' else (k, c) :: set key node cs'
  end.

(** [children.erase(key)]; keys are unique in every list [set] builds. *)
Fixpoint erase (key : string) (cs : list (string * DirectoryNode))
  : list (string * DirectoryNode) :=
  match cs with
  | [] => []
  | (k, c) :: cs' => if String.eqb k key then erase key cs' else (k, c) :: erase key cs'
  end.

End Children.

Definition with_children (node : DirectoryNode) (cs : list (string * DirectoryNode))
  : DirectoryNode :=
  mkNode (name node) (isDirectory node) (fileData node) cs.

(** ** Paths: [stringstream] and [getline(ss, part, '/')] *)

Definition delimiter : Ascii.ascii := "/"%char.

(** One call of [getline(ss, part, delim)] on the unread characters [ss]:
    [None] when the stream is exhausted, otherwise the part read and the
    characters left after the delimiter. *)
Fixpoint read_until (ss : string) : string * string :=
  match ss with
  | EmptyString => (EmptyString, EmptyString)
  | String c ss' =>
      if Ascii.eqb c delimiter then (EmptyString, ss')
      else let '(part, rest) := read_until ss' in (String c part, rest)
  end.

Definition getline (ss : string) : option (string * string) :=
  match ss with
  | EmptyString => None
  | _ => Some (read_until ss)
  end.

(** The parts the loop [while (getline(ss, part, '/'))] sees, in order;
    [part] holds the characters of the part being read
    (see [getline_parts_unfold]). *)
Fixpoint getline_parts (part : string) (ss : string) : list string :=
  match ss with
  | EmptyString => match part with EmptyString => [] | _ => [part] end
  | String c ss' =>
      if Ascii.eqb c delimiter then part :: getline_parts EmptyString ss'
      else getline_parts (part +:+ String c EmptyString) ss'
  end.

Definition part_empty (part : string) : bool :=
  match part with EmptyString => true | _ => false end.

(** The test of the loops: [part.empty()] sends the loop to its next round. *)
Abbreviation nonempty_part := (fun part : string => negb (part_empty part)).

(** [path.substr(1)] of a non-empty string. *)
Definition substr1 (path : string) : string :=
  match path with EmptyString => EmptyString | String _ rest => rest end.

(** [path.back()] *)
Fixpoint back (path : string) : option Ascii.ascii :=
  match path with
  | EmptyString => None
  | String c EmptyString => Some c
  | String _ rest => back rest
  end.

(** The parts of [path] the two walks act on: those the loop does not skip. *)
Definition walk_parts (path : string) : list string :=
  List.filter nonempty_part (getline_parts EmptyString (substr1 path)).

Definition new_directory (part : string) : DirectoryNode := mkNode part true None [].

(** The loop of [getOrCreatePath].  The C++ function returns a pointer into
    the tree and the caller mutates the tree through it; here the caller's
    mutation [k] is applied to the node the pointer designates, and the
    rebuilt tree is returned. *)
Fixpoint getOrCreatePath_loop (parts : list string) (k : DirectoryNode -> DirectoryNode)
  (current : DirectoryNode) : DirectoryNode :=
  match parts with
  | [] => k current
  | part :: rest =>
      if part_empty part then getOrCreatePath_loop rest k current
      else
        let child := default (new_directory part) (Children.find part (children current)) in
        with_children current
          (Children.set part (getOrCreatePath_loop rest k child) (children current))
  end.

Definition getOrCreatePath (path : string) (k : DirectoryNode -> DirectoryNode)
  (root : DirectoryNode) : option DirectoryNode :=
  match path with
  | EmptyString => None
  | String c rest =>
      if negb (Ascii.eqb c delimiter) then None
      else if String.eqb path "/" then Some (k root)
      else Some (getOrCreatePath_loop (getline_parts EmptyString rest) k root)
  end.

Fixpoint findFileNode_loop (parts : list string) (current : DirectoryNode)
  : option DirectoryNode :=
  match parts with
  | [] => Some current
  | part :: rest =>
      if part_empty part then findFileNode_loop rest current
      else match Children.find part (children current) with
           | None => None
           | Some child => findFileNode_loop rest child
           end
  end.

Definition findFileNode (fullPath : string) (root : DirectoryNode) : option DirectoryNode :=
  match fullPath with
  | EmptyString => None
  | String c rest =>
      if negb (Ascii.eqb c delimiter) then None
      else if String.eqb fullPath "/" then Some root
      else findFileNode_loop (getline_parts EmptyString rest) root
  end.

(** [if (auto parent = fileNode->parent.lock()) parent->children.erase(fileNode->name)]
    for the node found along [parts] (the parts the walk did not skip).  The
    back-reference of a node is set once, to the node whose [children] it is
    stored in, so the parent is the node the walk reached one step earlier;
    the root has no parent. *)
Fixpoint detach (parts : list string) (nm : string) (current : DirectoryNode)
  : DirectoryNode :=
  match parts with
  | [] => current
  | part :: rest =>
      match rest with
      | [] => with_children current (Children.erase nm (children current))
      | _ =>
          match Children.find part (children current) with
          | None => current
          | Some child =>
              with_children current (Children.set part (detach rest nm child) (children current))
          end
      end
  end.

(** [traverseAndFilter]: the records the callback is called on, in order. *)
Fixpoint traverseAndFilter (node : DirectoryNode) : list FileMetadata :=
  match node with
  | mkNode _ isDir data cs =>
      (if isDir then [] else match data with Some file => [file] | None => [] end)
      ++ flat_map (fun c => traverseAndFilter (snd c)) cs
  end.

(** ** FileSystemSimulator *)

Module FileSystemSimulator.

Record t := mk {
  root : DirectoryNode;
  fileMetadataMap : gmap Z FileMetadata;
  invertedIndex : InvertedIndex.t;
  nextFileId : Z
}.

Definition init : t :=
  mk (mkNode "/" true None []) ∅ InvertedIndex.empty_index 1.

(** The record [addFile] builds. *)
Definition newFileData (path fileName extension : string) (fileSize : Z)
  (owner createTime : string) (fs : t) : FileMetadata :=
  let fullPath :=
    path +:+ (if bool_decide (back path = Some delimiter) then "" else "/") +:+ fileName in
  mkFileMetadata (nextFileId fs) fileName extension fileSize owner createTime fullPath.

(** [pathNode->children[fileName] = fileNode] *)
Definition attach (fileName : string) (fileNode : DirectoryNode) (pathNode : DirectoryNode)
  : DirectoryNode :=
  with_children pathNode (Children.set fileName fileNode (children pathNode)).

(** [nextFileId++] is taken on the integers here; [IntCounter.addFile] below
    is the same function with the counter held in an [int]. *)
Definition addFile (path fileName extension : string) (fileSize : Z)
  (owner createTime : string) (fs : t) : bool * t :=
  let fileData := newFileData path fileName extension fileSize owner createTime fs in
  let fileNode := mkNode fileName false (Some fileData) [] in
  match getOrCreatePath path (attach fileName fileNode) (root fs) with
  | None => (false, fs)
  | Some root' =>
      (true,
       mk root'
          (<[fileId fileData := fileData]> (fileMetadataMap fs))
          (InvertedIndex.addFile fileData (invertedIndex fs))
          (nextFileId fs + 1))
  end.

Definition removeFile (fullPath : string) (fs : t) : bool * t :=
  match findFileNode fullPath (root fs) with
  | None => (false, fs)
  | Some fileNode =>
      if isDirectory fileNode then (false, fs)
      else
        let root' := detach (walk_parts fullPath) (name fileNode) (root fs) in
        match fileData fileNode with
        | Some file =>
            (true,
             mk root'
                (delete (fileId file) (fileMetadataMap fs))
                (InvertedIndex.removeFile file (invertedIndex fs))
                (nextFileId fs))
        | None =>
            (true, mk root' (fileMetadataMap fs) (invertedIndex fs) (nextFileId fs))
        end
  end.

Definition queryByExtensionTraditional (ext : string) (fs : t) : list FileMetadata :=
  List.filter (fun file => String.eqb (extension file) ext) (traverseAndFilter (root fs)).

(** [for (fileId : fileIds) { it = fileMetadataMap.find(fileId); if found push_back }] *)
Definition resolve (fileIds : list Z) (fs : t) : list FileMetadata :=
  omap (fun id => fileMetadataMap fs !! id) fileIds.

Definition queryByExtensionIndexed (ext : string) (fs : t) : list FileMetadata :=
  resolve (InvertedIndex.queryByExtension ext (invertedIndex fs)) fs.

Definition queryBySizeRangeIndexed (minSize maxSize : Z) (fs : t)
  : option (list FileMetadata) :=
  match InvertedIndex.queryBySizeRange minSize maxSize (invertedIndex fs) with
  | None => None
  | Some fileIds => Some (resolve fileIds fs)
  end.

Definition queryByOwnerIndexed (own : string) (fs : t) : list FileMetadata :=
  resolve (InvertedIndex.queryByOwner own (invertedIndex fs)) fs.

Definition getTotalFiles (fs : t) : nat := size (fileMetadataMap fs).

(** Histories of one store. *)
Inductive op :=
| Add (path fileName extension : string) (fileSize : Z) (owner createTime : string)
| Remove (fullPath : string).

Definition step (fs : t) (o : op) : t :=
  match o with
  | Add path fileName extension fileSize owner createTime =>
      snd (addFile path fileName extension fileSize owner createTime fs)
  | Remove fullPath => snd (removeFile fullPath fs)
  end.

Definition run (fs : t) (ops : list op) : t := foldl step fs ops.

(** The identifiers handed out along a history, in order. *)
Fixpoint assigned_ids (fs : t) (ops : list op) : list Z :=
  match ops with
  | [] => []
  | o :: ops' =>
      match o with
      | Add path fileName extension fileSize owner createTime =>
          if fst (addFile path fileName extension fileSize owner createTime fs)
          then [fileId (newFileData path fileName extension fileSize owner createTime fs)]
          else []
      | Remove _ => []
      end ++ assigned_ids (step fs o) ops'
  end.

End FileSystemSimulator.

(** ** Invariants of the index and of the store *)

(** Strictly increasing sequences of ids. *)
Definition strictly_increasing (l : list Z) : Prop := StronglySorted Z.lt l.

Definition om_query (key : Z) (m : list (Z * list Z)) : list Z :=
  default [] (InvertedIndex.om_find key m).

Definition om_keys_sorted (m : list (Z * list Z)) : Prop :=
  strictly_increasing (m.*1).

(** An unordered index on the attribute [attr] agrees with the flat table
    [m]: its lists are sorted and non-empty, and an id is listed under a key
    exactly when the table holds a record with that id and that attribute
    value. *)
Definition um_inv (attr : FileMetadata → string) (m : gmap Z FileMetadata)
  (index : gmap string (list Z)) : Prop :=
  (∀ k l, index !! k = Some l → strictly_increasing l ∧ l ≠ []) ∧
  (∀ k id, id ∈ InvertedIndex.um_query k index ↔ ∃ r, m !! id = Some r ∧ attr r = k).

Definition om_inv (m : gmap Z FileMetadata) (index : list (Z * list Z)) : Prop :=
  om_keys_sorted index ∧
  (∀ k l, InvertedIndex.om_find k index = Some l → strictly_increasing l ∧ l ≠ []) ∧
  (∀ k id, id ∈ om_query k index ↔ ∃ r, m !! id = Some r ∧ fileSize r = k).

(** The entries of the ordered index with a key in [[lo, hi]]. *)
Definition in_range (lo hi : Z) (e : Z * list Z) : bool := (lo <=? e.1) && (e.1 <=? hi).

(** ** Paths as the specification words them *)

(** The pieces of a string between delimiters: one more than there are
    delimiters. *)
Fixpoint split_on_delimiter (piece : string) (s : string) : list string :=
  match s with
  | EmptyString => [piece]
  | String c s' =>
      if Ascii.eqb c delimiter then piece :: split_on_delimiter EmptyString s'
      else split_on_delimiter (piece +:+ String c EmptyString) s'
  end.

(** The segments of a path: its pieces, the empty ones (leading, trailing or
    between doubled delimiters) skipped. *)
Definition segments (path : string) : list string :=
  List.filter nonempty_part (split_on_delimiter EmptyString path).

(** Walking, and creating where absent, one directory per segment; [k] is
    applied to the node of the last segment. *)
Fixpoint create_along (segs : list string) (k : DirectoryNode -> DirectoryNode)
  (current : DirectoryNode) : DirectoryNode :=
  match segs with
  | [] => k current
  | seg :: rest =>
      let child := default (new_directory seg) (Children.find seg (children current)) in
      with_children current (Children.set seg (create_along rest k child) (children current))
  end.

(** A path is accepted when it is not empty and begins with the delimiter. *)
Definition accepted (path : string) : Prop :=
  ∃ rest, path = String delimiter rest.

Fixpoint has_delimiter (s : string) : bool :=
  match s with
  | EmptyString => false
  | String c s' => Ascii.eqb c delimiter || has_delimiter s'
  end.

(** A file name that is one segment: not empty, no delimiter inside. *)
Definition segment_name (fileName : string) : Prop :=
  fileName ≠ EmptyString ∧ has_delimiter fileName = false.

(** ** The tree seen from a list of keys *)

(** The node reached from [current] by following the keys, if every key is
    there. *)
Fixpoint node_at (keys : list string) (current : DirectoryNode) : option DirectoryNode :=
  match keys with
  | [] => Some current
  | key :: rest =>
      match Children.find key (children current) with
      | None => None
      | Some child => node_at rest child
      end
  end.

(** The node [create_along] applies its continuation to: the node at the
    end of the segments, absent directories taken as new and empty. *)
Fixpoint path_node (segs : list string) (current : DirectoryNode) : DirectoryNode :=
  match segs with
  | [] => current
  | seg :: rest =>
      path_node rest (default (new_directory seg) (Children.find seg (children current)))
  end.

(** The record a node itself holds for the traversal. *)
Definition own_record (node : DirectoryNode) : list FileMetadata :=
  if isDirectory node then []
  else match fileData node with Some file => [file] | None => [] end.

Definition children_records (cs : list (string * DirectoryNode)) : list FileMetadata :=
  flat_map (fun c => traverseAndFilter (snd c)) cs.

(** The records below the child stored under [key], none if there is no
    such child. *)
Definition child_records (key : string) (cs : list (string * DirectoryNode))
  : list FileMetadata :=
  match Children.find key cs with
  | Some c => traverseAndFilter c
  | None => []
  end.

(** A well-formed tree: child keys are unique, every child is stored under
    its own name, and a file node holds a record. *)
#[local] Unset Elimination Schemes.
Inductive wf_node : DirectoryNode → Prop :=
| wf_mkNode nm isDir data cs :
    NoDup (cs.*1) →
    (isDir = false → is_Some data) →
    Forall (fun kc => name kc.2 = kc.1 ∧ wf_node kc.2) cs →
    wf_node (mkNode nm isDir data cs).
#[local] Set Elimination Schemes.

Record store_inv (fs : FileSystemSimulator.t) : Prop := mk_store_inv {
  inv_extension :
    um_inv extension (FileSystemSimulator.fileMetadataMap fs)
      (InvertedIndex.extensionIndex (FileSystemSimulator.invertedIndex fs));
  inv_size :
    om_inv (FileSystemSimulator.fileMetadataMap fs)
      (InvertedIndex.sizeIndex (FileSystemSimulator.invertedIndex fs));
  inv_owner :
    um_inv owner (FileSystemSimulator.fileMetadataMap fs)
      (InvertedIndex.ownerIndex (FileSystemSimulator.invertedIndex fs));
  inv_time :
    um_inv createTime (FileSystemSimulator.fileMetadataMap fs)
      (InvertedIndex.timeIndex (FileSystemSimulator.invertedIndex fs));
  inv_ids :
    ∀ id r, FileSystemSimulator.fileMetadataMap fs !! id = Some r →
            fileId r = id ∧ id < FileSystemSimulator.nextFileId fs;
  inv_tree_table :
    ∀ r, r ∈ traverseAndFilter (FileSystemSimulator.root fs) →
         FileSystemSimulator.fileMetadataMap fs !! fileId r = Some r;
  inv_tree_nodup :
    NoDup (fileId <$> traverseAndFilter (FileSystemSimulator.root fs));
  inv_wf : wf_node (FileSystemSimulator.root fs);
  inv_root : isDirectory (FileSystemSimulator.root fs) = true
}.

(** ** Vocabulary of the statements *)





(** An add keeps every record reachable when no record lies below a child
    of the same name in the target directory; a remove does when no record
    lies below the file node it detaches. *)
Definition add_keeps (path fileName : string) (fs : FileSystemSimulator.t) : Prop :=
  child_records fileName
    (children (path_node (walk_parts path) (FileSystemSimulator.root fs))) = [].

Definition remove_keeps (fullPath : string) (fs : FileSystemSimulator.t) : Prop :=
  match findFileNode fullPath (FileSystemSimulator.root fs) with
  | Some f => isDirectory f = false → children_records (children f) = []
  | None => True
  end.

Fixpoint history_keeps (fs : FileSystemSimulator.t) (ops : list FileSystemSimulator.op)
  : Prop :=
  match ops with
  | [] => True
  | o :: ops' =>
      match o with
      | FileSystemSimulator.Add path fileName _ _ _ _ => accepted path → add_keeps path fileName fs
      | FileSystemSimulator.Remove fullPath => remove_keeps fullPath fs
      end ∧ history_keeps (FileSystemSimulator.step fs o) ops'
  end.

(** Every record of the flat table is reachable by the traversal. *)
Definition tree_complete (fs : FileSystemSimulator.t) : Prop :=
  ∀ id r, FileSystemSimulator.fileMetadataMap fs !! id = Some r →
          r ∈ traverseAndFilter (FileSystemSimulator.root fs).

(** ** Sizes and memory use *)

Module MemoryUsage.

(** What the platform fixes: [sizeof(int)] and the modulus [2^w] of the
    [w]-bit unsigned [size_t], in which the sums are computed. *)
Record platform := mk_platform {
  sizeof_int : Z;
  size_t_modulus : Z
}.

Definition wrap (p : platform) (n : Z) : Z := n mod size_t_modulus p.

(** [CompressedInvertedList::size] *)
Definition size (sortedFileIds : list Z) : nat := length sortedFileIds.






End MemoryUsage.




(** ** Histories that use every name once *)

(** A tree in which a file node is a leaf stored under a name of [N] and a
    directory is stored under a name of [D]. *)
#[local] Unset Elimination Schemes.
Inductive shaped (N D : list string) : DirectoryNode → Prop :=
| shaped_mkNode nm isDir data cs :
    Forall (fun kc => (isDirectory kc.2 = true → kc.1 ∈ D) ∧
                      (isDirectory kc.2 = false → kc.1 ∈ N ∧ children kc.2 = []) ∧
                      shaped N D kc.2) cs →
    shaped N D (mkNode nm isDir data cs).
#[local] Set Elimination Schemes.


(** ** The counter as an [int] *)

(** [nextFileId] is an [int] and [nextFileId++] is the only arithmetic done
    on it.  [FileSystemSimulator.addFile] above counts on the integers;
    here the counter is held in 32 bits.  The increment of a counter that
    holds [INT_MAX] is undefined in C++; a two's complement machine leaves
    [INT_MIN] in it, which is what [wrap] computes.  The two stores agree as
    long as the counter stays below [INT_MAX] ([IntCounter_run_exact]). *)
Module IntCounter.

Definition INT_MAX : Z := 2147483647.

Definition INT_MIN : Z := -2147483648.

Definition wrap (n : Z) : Z := (n - INT_MIN) mod (INT_MAX - INT_MIN + 1) + INT_MIN.

Definition addFile (path fileName extension : string) (fileSize : Z)
  (owner createTime : string) (fs : FileSystemSimulator.t) : bool * FileSystemSimulator.t :=
  let fileData :=
    FileSystemSimulator.newFileData path fileName extension fileSize owner createTime fs in
  let fileNode := mkNode fileName false (Some fileData) [] in
  match getOrCreatePath path (FileSystemSimulator.attach fileName fileNode)
          (FileSystemSimulator.root fs) with
  | None => (false, fs)
  | Some root' =>
      (true,
       FileSystemSimulator.mk root'
          (<[fileId fileData := fileData]> (FileSystemSimulator.fileMetadataMap fs))
          (InvertedIndex.addFile fileData (FileSystemSimulator.invertedIndex fs))
          (wrap (FileSystemSimulator.nextFileId fs + 1)))
  end.

Definition step (fs : FileSystemSimulator.t) (o : FileSystemSimulator.op)
  : FileSystemSimulator.t :=
  match o with
  | FileSystemSimulator.Add path fileName extension fileSize owner createTime =>
      snd (addFile path fileName extension fileSize owner createTime fs)
  | FileSystemSimulator.Remove fullPath => snd (FileSystemSimulator.removeFile fullPath fs)
  end.

Definition run (fs : FileSystemSimulator.t) (ops : list FileSystemSimulator.op)
  : FileSystemSimulator.t := foldl step fs ops.

(** The identifiers handed out along a history, in order. *)
Fixpoint assigned_ids (fs : FileSystemSimulator.t) (ops : list FileSystemSimulator.op)
  : list Z :=
  match ops with
  | [] => []
  | o :: ops' =>
      match o with
      | FileSystemSimulator.Add path fileName extension fileSize owner createTime =>
          if fst (addFile path fileName extension fileSize owner createTime fs)
          then [fileId (FileSystemSimulator.newFileData path fileName extension fileSize
                          owner createTime fs)]
          else []
      | FileSystemSimulator.Remove _ => []
      end ++ assigned_ids (step fs o) ops'
  end.

End IntCounter.

(** ** Generated test data *)

Module TestData.

(** What the four distributions return in one round of the loop of
    [generateTestData]: an index into each of the three vectors, and a
    size. *)
Record draws := mk_draws {
  extDist : nat;
  ownerDist : nat;
  pathDist : nat;
  sizeDist : Z
}.

Definition extensions : list string :=
  [".jpg"; ".png"; ".pdf"; ".txt"; ".doc"; ".mp4"; ".mp3"].

Definition owners : list string := ["user1"; "user2"; "user3"; "admin"; "guest"].

Definition paths : list string :=
  ["/home/user1"; "/home/user2"; "/documents"; "/pictures"; "/videos"].

(** What [uniform_int_distribution<>(0, size - 1)] and
    [uniform_int_distribution<long long>(1024, 10 * 1024 * 1024)] can
    return. *)
Definition in_bounds (d : draws) : Prop :=
  (extDist d < length extensions)%nat ∧
  (ownerDist d < length owners)%nat ∧
  (pathDist d < length paths)%nat ∧
  1024 ≤ sizeDist d ≤ 10 * 1024 * 1024.

(** [std::to_string] on an [int]: decimal digits, a minus sign before a
    negative number. *)
Definition to_string (i : Z) : string := pretty i.

(** One round of the loop, for the counter [i].  [operator[]] of a vector
    is undefined out of range: [None].  The result of [addFile] is
    dropped. *)
Definition round (i : Z) (d : draws) (fs : FileSystemSimulator.t)
  : option FileSystemSimulator.t :=
  let fileName := "file" +:+ to_string i in
  extension ← extensions !! extDist d;
  owner ← owners !! ownerDist d;
  path ← paths !! pathDist d;
  let fileSize := sizeDist d in
  let createTime :=
    (("2024-" +:+ to_string (Z.rem i 12 + 1)) +:+ "-") +:+ to_string (Z.rem i 28 + 1) in
  Some (IntCounter.addFile path fileName extension fileSize owner createTime fs).2.

(** [for (int i = ...; i < numFiles; ++i)], with the rounds left to run;
    [gen i] is what the generator yields in round [i]. *)
Fixpoint loop (rounds : nat) (i : Z) (gen : Z → draws) (fs : FileSystemSimulator.t)
  : option FileSystemSimulator.t :=
  match rounds with
  | O => Some fs
  | S rounds' => fs' ← round i (gen i) fs; loop rounds' (i + 1) gen fs'
  end.

Definition generateTestData (numFiles : Z) (gen : Z → draws) (fs : FileSystemSimulator.t)
  : option FileSystemSimulator.t :=
  loop (Z.to_nat numFiles) 0 gen fs.

(** The record of round [i], field by field. *)
Definition generated (gen : Z → draws) (i : Z) (r : FileMetadata) : Prop :=
  fileId r = i + 1 ∧
  fileName r = "file" +:+ to_string i ∧
  extensions !! extDist (gen i) = Some (extension r) ∧
  owners !! ownerDist (gen i) = Some (owner r) ∧
  fileSize r = sizeDist (gen i) ∧
  createTime r = "2024-" +:+ to_string (i mod 12 + 1) +:+ "-" +:+ to_string (i mod 28 + 1) ∧
  ∃ path, paths !! pathDist (gen i) = Some path ∧
          fullPath r = path +:+ "/" +:+ fileName r.

End TestData.

(** * Properties *)

Section PostingList.

Lemma lower_bound_le l x : (lower_bound l x <= length l)%nat.
Proof. induction l as [|y l IH]; simpl; [lia|]. destruct (y <? x); simpl; lia. Qed.

End PostingList.

Section PostingListMore.

Implicit Types (l : list Z) (x y : Z).

(** The two mutators, read along the vector. *)
Lemma addFileId_cons x y l :
  addFileId x (y :: l) =
    if y <? x then y :: addFileId x l
    else if y =? x then y :: l else x :: y :: l.
Proof.
  unfold addFileId, insert_at; simpl.
  destruct (y <? x) eqn:Hlt; simpl.
  - destruct (l !! lower_bound l x) as [z|]; [destruct (z =? x)|]; reflexivity.
  - destruct (y =? x); reflexivity.
Qed.

Lemma removeFileId_cons x y l :
  removeFileId x (y :: l) =
    if y <? x then y :: removeFileId x l
    else if y =? x then l else y :: l.
Proof.
  unfold removeFileId; simpl.
  destruct (y <? x) eqn:Hlt; simpl.
  - destruct (l !! lower_bound l x) as [z|]; [destruct (z =? x)|]; reflexivity.
  - destruct (y =? x); reflexivity.
Qed.

Lemma addFileId_nil x : addFileId x [] = [x].
Proof. reflexivity. Qed.

Lemma removeFileId_nil x : removeFileId x [] = [].
Proof. reflexivity. Qed.

Lemma elem_of_addFileId x y l : y ∈ addFileId x l ↔ y = x ∨ y ∈ l.
Proof.
  induction l as [|z l IH].
  - rewrite addFileId_nil, elem_of_cons. tauto.
  - rewrite addFileId_cons.
    destruct (z <? x) eqn:Hlt; [rewrite !elem_of_cons, IH; tauto|].
    destruct (z =? x) eqn:Heq; [|rewrite !elem_of_cons; tauto].
    apply Z.eqb_eq in Heq. subst z. rewrite !elem_of_cons. tauto.
Qed.

Lemma strictly_increasing_cons_inv x l :
  strictly_increasing (x :: l) → strictly_increasing l ∧ ∀ y, y ∈ l → x < y.
Proof.
  intros H. inversion H as [|? ? Hs Hall]; subst. split; [done|].
  intros y Hy. rewrite Forall_forall in Hall. by apply Hall.
Qed.

Lemma strictly_increasing_cons x l :
  strictly_increasing l → (∀ y, y ∈ l → x < y) → strictly_increasing (x :: l).
Proof. intros Hs Hall. constructor; [done|]. by apply Forall_forall. Qed.

Lemma addFileId_sorted x l :
  strictly_increasing l → strictly_increasing (addFileId x l).
Proof.
  induction l as [|z l IH]; intros Hs.
  - rewrite addFileId_nil. apply strictly_increasing_cons; [constructor|set_solver].
  - apply strictly_increasing_cons_inv in Hs as [Hs Hall].
    rewrite addFileId_cons.
    destruct (z <? x) eqn:Hlt.
    + apply Z.ltb_lt in Hlt. apply strictly_increasing_cons; [by apply IH|].
      intros y [->|Hy]%elem_of_addFileId; [done|by apply Hall].
    + apply Z.ltb_ge in Hlt. destruct (z =? x) eqn:Heq.
      * by apply strictly_increasing_cons.
      * apply Z.eqb_neq in Heq.
        apply strictly_increasing_cons; [by apply strictly_increasing_cons|].
        intros y [->|Hy]%elem_of_cons; [lia|]. specialize (Hall y Hy). lia.
Qed.

Lemma elem_of_removeFileId x y l :
  strictly_increasing l → y ∈ removeFileId x l ↔ y ∈ l ∧ y ≠ x.
Proof.
  induction l as [|z l IH]; intros Hs.
  - rewrite removeFileId_nil. set_solver.
  - apply strictly_increasing_cons_inv in Hs as [Hs Hall].
    rewrite removeFileId_cons.
    destruct (z <? x) eqn:Hlt.
    + apply Z.ltb_lt in Hlt. rewrite !elem_of_cons, (IH Hs).
      split; [intros [->|[? ?]]; split; auto; lia | intros [[->|?] ?]; auto].
    + apply Z.ltb_ge in Hlt. destruct (z =? x) eqn:Heq.
      * apply Z.eqb_eq in Heq. subst z. rewrite elem_of_cons.
        split; [intros Hy; specialize (Hall y Hy); split; [auto|lia]|].
        intros [[->|?] ?]; done.
      * apply Z.eqb_neq in Heq. rewrite !elem_of_cons.
        split; [|tauto].
        intros [->|Hy]; [auto|]. specialize (Hall y Hy). split; [auto|lia].
Qed.

Lemma removeFileId_subseteq x l : removeFileId x l ⊆ l.
Proof.
  induction l as [|z l IH].
  - by rewrite removeFileId_nil.
  - rewrite removeFileId_cons.
    destruct (z <? x); [set_solver|]. destruct (z =? x); set_solver.
Qed.

Lemma removeFileId_sorted x l :
  strictly_increasing l → strictly_increasing (removeFileId x l).
Proof.
  induction l as [|z l IH]; intros Hs.
  - by rewrite removeFileId_nil.
  - pose proof Hs as Hs'.
    apply strictly_increasing_cons_inv in Hs as [Hs Hall].
    rewrite removeFileId_cons.
    destruct (z <? x) eqn:Hlt.
    + apply strictly_increasing_cons; [by apply IH|].
      intros y Hy. apply Hall. by apply (removeFileId_subseteq x).
    + by destruct (z =? x).
Qed.

(** Inserting an id that is there changes nothing. *)
Lemma addFileId_present x l :
  strictly_increasing l → x ∈ l → addFileId x l = l.
Proof.
  induction l as [|z l IH]; intros Hs Hx; [by apply elem_of_nil in Hx|].
  apply strictly_increasing_cons_inv in Hs as [Hs Hall].
  rewrite addFileId_cons.
  destruct (z <? x) eqn:Hlt.
  - apply Z.ltb_lt in Hlt. apply elem_of_cons in Hx as [->|Hx]; [lia|].
    by rewrite IH.
  - apply Z.ltb_ge in Hlt. destruct (z =? x) eqn:Heq; [done|].
    apply Z.eqb_neq in Heq. apply elem_of_cons in Hx as [->|Hx]; [done|].
    specialize (Hall x Hx). lia.
Qed.

(** Removing an id that is not there changes nothing. *)
Lemma removeFileId_absent x l : x ∉ l → removeFileId x l = l.
Proof.
  induction l as [|z l IH]; intros Hx; [done|].
  rewrite removeFileId_cons. apply not_elem_of_cons in Hx as [Hne Hx].
  destruct (z <? x); [by rewrite IH|].
  destruct (z =? x) eqn:Heq; [|done]. apply Z.eqb_eq in Heq. congruence.
Qed.

Lemma apply_op_sorted l o :
  strictly_increasing l → strictly_increasing (apply_op l o).
Proof. destruct o; simpl; auto using addFileId_sorted, removeFileId_sorted. Qed.

Lemma foldl_apply_op_sorted ops l :
  strictly_increasing l → strictly_increasing (foldl apply_op l ops).
Proof.
  revert l. induction ops as [|o ops IH]; intros l Hs; simpl; [done|].
  apply IH. by apply apply_op_sorted.
Qed.

Lemma strictly_increasing_NoDup l : strictly_increasing l → NoDup l.
Proof.
  induction l as [|z l IH]; intros Hs; [constructor|].
  apply strictly_increasing_cons_inv in Hs as [Hs Hall].
  constructor; [|by apply IH]. intros Hz. specialize (Hall z Hz). lia.
Qed.

Lemma empty_true l : empty l = true ↔ l = [].
Proof. destruct l; simpl; split; congruence. Qed.

End PostingListMore.

(** C9. Every posting list, after any sequence of [addFileId] and
    [removeFileId] calls on a fresh list, is strictly increasing (hence free
    of duplicates); on such a list, inserting an id that is present and
    removing an id that is absent both return the list unchanged. *)
Theorem posting_list_sorted_and_idempotent :
  ∀ ops : list list_op,
    let l := apply_ops ops in
    strictly_increasing l ∧ NoDup l ∧
    (∀ x, x ∈ l → addFileId x l = l) ∧
    (∀ x, x ∉ l → removeFileId x l = l).
Proof.
  intros ops l.
  assert (Hs : strictly_increasing l).
  { apply foldl_apply_op_sorted. constructor. }
  repeat split.
  - exact Hs.
  - by apply strictly_increasing_NoDup.
  - intros x Hx. by apply addFileId_present.
  - intros x Hx. by apply removeFileId_absent.
Qed.

Lemma posting_list_sorted_and_idempotent_witness :
  let l := apply_ops [Insert 3; Insert 1; Insert 3; Erase 7] in
  (3 ∈ l ∧ 7 ∉ l) ∧ addFileId 3 l = l ∧ removeFileId 7 l = l.
Proof.
  assert (H3 : 3 ∈ apply_ops [Insert 3; Insert 1; Insert 3; Erase 7])
    by (right; left).
  assert (H7 : 7 ∉ apply_ops [Insert 3; Insert 1; Insert 3; Erase 7]).
  { intros [H|[H|H]%elem_of_cons]%elem_of_cons; [discriminate..|].
    by apply elem_of_nil in H. }
  split; [split; [exact H3|exact H7]|].
  destruct (posting_list_sorted_and_idempotent [Insert 3; Insert 1; Insert 3; Erase 7])
    as (_ & _ & Hadd & Hrem).
  split; [exact (Hadd 3 H3)|exact (Hrem 7 H7)].
Defined.

Section UnorderedIndex.

Import InvertedIndex.
Implicit Types (index : gmap string (list Z)) (k key : string) (id : Z).

Lemma um_query_default key index : default [] (index !! key) = um_query key index.
Proof. unfold um_query, getFileIds. by destruct (index !! key). Qed.

Lemma um_query_add k key id index :
  um_query k (um_add key id index) =
    if decide (k = key) then addFileId id (um_query key index) else um_query k index.
Proof.
  unfold um_add. rewrite um_query_default. unfold um_query at 1.
  destruct (decide (k = key)) as [->|Hne].
  - by rewrite lookup_insert_eq.
  - by rewrite lookup_insert_ne.
Qed.

Lemma um_query_remove k key id index :
  um_query k (um_remove key id index) =
    if decide (k = key) then removeFileId id (um_query key index) else um_query k index.
Proof.
  unfold um_remove. rewrite um_query_default. unfold um_query at 1.
  destruct (empty _) eqn:He.
  - apply empty_true in He.
    destruct (decide (k = key)) as [->|Hne].
    + by rewrite lookup_delete_eq, He.
    + by rewrite lookup_delete_ne.
  - destruct (decide (k = key)) as [->|Hne].
    + by rewrite lookup_insert_eq.
    + by rewrite lookup_insert_ne.
Qed.

Lemma um_query_sorted attr m index k :
  um_inv attr m index → strictly_increasing (um_query k index).
Proof.
  intros [Hs _]. unfold um_query, getFileIds.
  destruct (index !! k) as [l|] eqn:Hl; [by apply (Hs k)|constructor].
Qed.


Lemma um_inv_empty attr : um_inv attr ∅ ∅.
Proof.
  split.
  - intros k l Hl. by rewrite lookup_empty in Hl.
  - intros k id. unfold um_query. rewrite lookup_empty. split.
    + by intros ?%elem_of_nil.
    + intros (r & Hr & _). by rewrite lookup_empty in Hr.
Qed.

(** Registering a record with a fresh id. *)
Lemma um_inv_add attr m index r :
  um_inv attr m index → m !! fileId r = None →
  um_inv attr (<[fileId r := r]> m) (um_add (attr r) (fileId r) index).
Proof.
  intros Hinv Hfresh. pose proof Hinv as [Hs Hq]. split.
  - intros k l. unfold um_add.
    destruct (decide (k = attr r)) as [->|Hne].
    + rewrite lookup_insert_eq. intros [= <-]. rewrite um_query_default. split.
      * apply addFileId_sorted. by eapply um_query_sorted.
      * intros Hnil.
        assert (Hin : fileId r ∈ addFileId (fileId r) (um_query (attr r) index))
          by (apply elem_of_addFileId; by left).
        rewrite Hnil in Hin. by apply elem_of_nil in Hin.
    + rewrite lookup_insert_ne by done. apply Hs.
  - intros k id. rewrite um_query_add.
    destruct (decide (k = attr r)) as [->|Hne].
    + rewrite elem_of_addFileId, Hq. split.
      * intros [->|(r' & Hr' & Ha)].
        -- exists r. by rewrite lookup_insert_eq.
        -- exists r'. split; [|done]. rewrite lookup_insert_ne; [done|congruence].
      * intros (r' & Hr' & Ha).
        destruct (decide (id = fileId r)) as [->|Hid]; [by left|right].
        exists r'. by rewrite lookup_insert_ne in Hr'.
    + rewrite Hq. split.
      * intros (r' & Hr' & Ha). exists r'. split; [|done].
        rewrite lookup_insert_ne; [done|congruence].
      * intros (r' & Hr' & Ha).
        destruct (decide (id = fileId r)) as [->|Hid].
        -- rewrite lookup_insert_eq in Hr'. congruence.
        -- exists r'. by rewrite lookup_insert_ne in Hr'.
Qed.

(** Deregistering a record the table holds. *)
Lemma um_inv_remove attr m index r :
  um_inv attr m index → m !! fileId r = Some r →
  um_inv attr (delete (fileId r) m) (um_remove (attr r) (fileId r) index).
Proof.
  intros Hinv Hr. pose proof Hinv as [Hs Hq]. split.
  - intros k l. unfold um_remove. rewrite um_query_default.
    destruct (empty _) eqn:He.
    + destruct (decide (k = attr r)) as [->|Hne].
      * by rewrite lookup_delete_eq.
      * rewrite lookup_delete_ne by done. apply Hs.
    + destruct (decide (k = attr r)) as [->|Hne].
      * rewrite lookup_insert_eq. intros [= <-]. split.
        -- apply removeFileId_sorted. by eapply um_query_sorted.
        -- intros Hnil. rewrite Hnil in He. done.
      * rewrite lookup_insert_ne by done. apply Hs.
  - intros k id. rewrite um_query_remove.
    destruct (decide (k = attr r)) as [->|Hne].
    + rewrite elem_of_removeFileId by (by eapply um_query_sorted). rewrite Hq. split.
      * intros [(r' & Hr' & Ha) Hid]. exists r'. by rewrite lookup_delete_ne.
      * intros (r' & Hr' & Ha).
        destruct (decide (id = fileId r)) as [->|Hid].
        -- by rewrite lookup_delete_eq in Hr'.
        -- rewrite lookup_delete_ne in Hr' by done. eauto.
    + rewrite Hq. split.
      * intros (r' & Hr' & Ha). exists r'. split; [|done].
        rewrite lookup_delete_ne; [done|]. intros <-. congruence.
      * intros (r' & Hr' & Ha).
        destruct (decide (id = fileId r)) as [->|Hid].
        -- by rewrite lookup_delete_eq in Hr'.
        -- rewrite lookup_delete_ne in Hr' by done. eauto.
Qed.

End UnorderedIndex.

Section OrderedIndex.

Import InvertedIndex.
Implicit Types (m : list (Z * list Z)) (k key : Z) (v : list Z).

Lemma om_keys_sorted_cons k v m :
  om_keys_sorted ((k, v) :: m) ↔ om_keys_sorted m ∧ ∀ k', k' ∈ m.*1 → k < k'.
Proof.
  unfold om_keys_sorted. simpl. split.
  - apply strictly_increasing_cons_inv.
  - intros [? ?]. by apply strictly_increasing_cons.
Qed.

Lemma om_find_lt key m :
  (∀ k', k' ∈ m.*1 → key < k') → om_find key m = None.
Proof.
  destruct m as [|[k v] m]; [done|]. intros Hall. simpl.
  assert (key < k) by (apply Hall; simpl; left).
  destruct (k <? key) eqn:Hlt; [apply Z.ltb_lt in Hlt; lia|].
  destruct (k =? key) eqn:Heq; [apply Z.eqb_eq in Heq; lia|done].
Qed.


Lemma om_find_elem key m v :
  om_keys_sorted m → om_find key m = Some v ↔ (key, v) ∈ m.
Proof.
  induction m as [|[k w] m IH]; intros Hs.
  - simpl. split; [done|by intros ?%elem_of_nil].
  - apply om_keys_sorted_cons in Hs as [Hs Hall]. simpl. rewrite elem_of_cons.
    destruct (k <? key) eqn:Hlt.
    + apply Z.ltb_lt in Hlt. rewrite (IH Hs). split; [auto|].
      intros [[= -> ->]|?]; [lia|done].
    + apply Z.ltb_ge in Hlt. destruct (k =? key) eqn:Heq.
      * apply Z.eqb_eq in Heq. subst k. split; [intros [= ->]; by left|].
        intros [[= ->]|Hin]; [done|].
        assert (key ∈ m.*1) by (apply list_elem_of_fmap; by exists (key, v)).
        specialize (Hall key H). lia.
      * apply Z.eqb_neq in Heq. split; [done|].
        intros [[= -> ->]|Hin]; [done|].
        assert (key ∈ m.*1) by (apply list_elem_of_fmap; by exists (key, v)).
        specialize (Hall key H). lia.
Qed.

Lemma om_set_keys key v m k : k ∈ (om_set key v m).*1 ↔ k = key ∨ k ∈ m.*1.
Proof.
  induction m as [|[k' w] m IH]; simpl.
  - rewrite elem_of_cons. split; [intros [?|?%elem_of_nil]|intros [?|?%elem_of_nil]]; tauto.
  - destruct (k' <? key); simpl.
    + rewrite !elem_of_cons, IH. tauto.
    + destruct (k' =? key) eqn:Heq; simpl.
      * apply Z.eqb_eq in Heq. subst. rewrite !elem_of_cons. tauto.
      * rewrite !elem_of_cons. tauto.
Qed.

Lemma om_set_sorted key v m : om_keys_sorted m → om_keys_sorted (om_set key v m).
Proof.
  induction m as [|[k w] m IH]; intros Hs; simpl.
  - apply om_keys_sorted_cons. split; [constructor|]. by intros ? ?%elem_of_nil.
  - apply om_keys_sorted_cons in Hs as [Hs Hall].
    destruct (k <? key) eqn:Hlt.
    + apply Z.ltb_lt in Hlt. apply om_keys_sorted_cons. split; [by apply IH|].
      intros k' [->|Hk']%om_set_keys; [done|by apply Hall].
    + apply Z.ltb_ge in Hlt. destruct (k =? key) eqn:Heq.
      * apply Z.eqb_eq in Heq. subst. by apply om_keys_sorted_cons.
      * apply Z.eqb_neq in Heq. apply om_keys_sorted_cons. split.
        -- by apply om_keys_sorted_cons.
        -- simpl. intros k' [->|Hk']%elem_of_cons; [lia|]. specialize (Hall k' Hk'). lia.
Qed.

Lemma om_find_set key v m k :
  om_keys_sorted m →
  om_find k (om_set key v m) = if decide (k = key) then Some v else om_find k m.
Proof.
  induction m as [|[k' w] m IH]; intros Hs; simpl.
  - destruct (decide (k = key)) as [->|Hne].
    + by rewrite Z.ltb_irrefl, Z.eqb_refl.
    + destruct (key <? k); [done|].
      destruct (key =? k) eqn:Heq; [apply Z.eqb_eq in Heq; congruence|done].
  - apply om_keys_sorted_cons in Hs as [Hs Hall].
    destruct (k' <? key) eqn:Hlt; simpl.
    + rewrite (IH Hs).
      destruct (decide (k = key)) as [->|Hne]; [by rewrite Hlt|done].
    + apply Z.ltb_ge in Hlt. destruct (k' =? key) eqn:Heq; simpl.
      * apply Z.eqb_eq in Heq. subst k'.
        destruct (decide (k = key)) as [->|Hne].
        -- by rewrite Z.ltb_irrefl, Z.eqb_refl.
        -- destruct (key <? k); [done|].
           destruct (key =? k) eqn:Heq; [apply Z.eqb_eq in Heq; congruence|done].
      * apply Z.eqb_neq in Heq.
        destruct (decide (k = key)) as [->|Hne].
        -- by rewrite Z.ltb_irrefl, Z.eqb_refl.
        -- destruct (key <? k) eqn:Hlt'; [done|]. apply Z.ltb_ge in Hlt'.
           destruct (key =? k) eqn:Heq'; [apply Z.eqb_eq in Heq'; congruence|].
           destruct (k' <? k) eqn:Hlt''; [apply Z.ltb_lt in Hlt''; lia|].
           destruct (k' =? k) eqn:Heq''; [apply Z.eqb_eq in Heq''; lia|done].
Qed.

Lemma om_erase_keys key m k : k ∈ (om_erase key m).*1 → k ∈ m.*1.
Proof.
  induction m as [|[k' w] m IH]; simpl; [done|].
  destruct (k' <? key); simpl.
  - rewrite !elem_of_cons. intros [?|?]; auto.
  - destruct (k' =? key); simpl; rewrite ?elem_of_cons; auto.
Qed.

Lemma om_erase_sorted key m : om_keys_sorted m → om_keys_sorted (om_erase key m).
Proof.
  induction m as [|[k w] m IH]; intros Hs; simpl; [done|].
  pose proof Hs as Hs'. apply om_keys_sorted_cons in Hs as [Hs Hall].
  destruct (k <? key).
  - apply om_keys_sorted_cons. split; [by apply IH|].
    intros k' Hk'. apply Hall. by eapply om_erase_keys.
  - by destruct (k =? key).
Qed.

Lemma om_find_erase key m k :
  om_keys_sorted m →
  om_find k (om_erase key m) = if decide (k = key) then None else om_find k m.
Proof.
  induction m as [|[k' w] m IH]; intros Hs; simpl.
  - by destruct (decide (k = key)).
  - apply om_keys_sorted_cons in Hs as [Hs Hall].
    destruct (k' <? key) eqn:Hlt; simpl.
    + apply Z.ltb_lt in Hlt. rewrite (IH Hs).
      destruct (k' <? k) eqn:Hlt'; [done|]. apply Z.ltb_ge in Hlt'.
      destruct (decide (k = key)) as [->|Hne]; [lia|done].
    + apply Z.ltb_ge in Hlt. destruct (k' =? key) eqn:Heq; simpl.
      * apply Z.eqb_eq in Heq. subst k'.
        destruct (decide (k = key)) as [->|Hne].
        -- apply om_find_lt. done.
        -- destruct (key <? k) eqn:Hlt'; [done|]. apply Z.ltb_ge in Hlt'.
           destruct (key =? k) eqn:Heq; [apply Z.eqb_eq in Heq; congruence|].
           apply om_find_lt. intros k'' Hk''. specialize (Hall k'' Hk''). lia.
      * apply Z.eqb_neq in Heq.
        destruct (decide (k = key)) as [->|Hne]; [|done].
        destruct (k' <? key) eqn:Hlt'; [apply Z.ltb_lt in Hlt'; lia|].
        destruct (k' =? key) eqn:Heq'; [apply Z.eqb_eq in Heq'; lia|done].
Qed.

Lemma om_query_add k key id m :
  om_keys_sorted m →
  om_query k (om_add key id m) =
    if decide (k = key) then addFileId id (om_query key m) else om_query k m.
Proof.
  intros Hs. unfold om_query, om_add. rewrite om_find_set by done.
  by destruct (decide (k = key)).
Qed.

Lemma om_add_sorted key id m : om_keys_sorted m → om_keys_sorted (om_add key id m).
Proof. apply om_set_sorted. Qed.

Lemma om_remove_sorted key id m : om_keys_sorted m → om_keys_sorted (om_remove key id m).
Proof.
  intros Hs. unfold om_remove.
  destruct (empty _); [apply om_erase_sorted|]; by apply om_set_sorted.
Qed.

Lemma om_find_remove k key id m :
  om_keys_sorted m →
  om_find k (om_remove key id m) =
    if decide (k = key)
    then (let l := removeFileId id (om_query key m) in if empty l then None else Some l)
    else om_find k m.
Proof.
  intros Hs. unfold om_remove. fold (om_query key m). simpl.
  destruct (empty _) eqn:He.
  - rewrite om_find_erase by (by apply om_set_sorted). rewrite om_find_set by done.
    by destruct (decide (k = key)).
  - rewrite om_find_set by done. by destruct (decide (k = key)).
Qed.

Lemma om_query_remove k key id m :
  om_keys_sorted m →
  om_query k (om_remove key id m) =
    if decide (k = key) then removeFileId id (om_query key m) else om_query k m.
Proof.
  intros Hs. unfold om_query at 1. rewrite om_find_remove by done.
  destruct (decide (k = key)) as [->|]; [|done]. simpl.
  destruct (empty _) eqn:He; [|done]. apply empty_true in He. by rewrite He.
Qed.

Lemma om_query_sorted t m k : om_inv t m → strictly_increasing (om_query k m).
Proof.
  intros (_ & Hs & _). unfold om_query.
  destruct (om_find k m) as [l|] eqn:Hl; [by apply (Hs k)|constructor].
Qed.

Lemma om_inv_empty : om_inv ∅ [].
Proof.
  split; [constructor|]. split; [done|].
  intros k id. split; [by intros ?%elem_of_nil|].
  intros (r & Hr & _). by rewrite lookup_empty in Hr.
Qed.

Lemma om_inv_add (t : gmap Z FileMetadata) m r :
  om_inv t m → t !! fileId r = None →
  om_inv (<[fileId r := r]> t) (om_add (fileSize r) (fileId r) m).
Proof.
  intros Hinv Hfresh. pose proof Hinv as (Hk & Hs & Hq). split; [by apply om_add_sorted|]. split.
  - intros k l. unfold om_add. rewrite om_find_set by done. fold (om_query (fileSize r) m).
    destruct (decide (k = fileSize r)) as [->|Hne]; [|apply Hs].
    intros [= <-]. split.
    + apply addFileId_sorted. by eapply om_query_sorted.
    + intros Hnil.
      assert (Hin : fileId r ∈ addFileId (fileId r) (om_query (fileSize r) m))
        by (apply elem_of_addFileId; by left).
      rewrite Hnil in Hin. by apply elem_of_nil in Hin.
  - intros k id. rewrite om_query_add by done.
    destruct (decide (k = fileSize r)) as [->|Hne].
    + rewrite elem_of_addFileId, Hq. split.
      * intros [->|(r' & Hr' & Ha)].
        -- exists r. by rewrite lookup_insert_eq.
        -- exists r'. split; [|done]. rewrite lookup_insert_ne; [done|congruence].
      * intros (r' & Hr' & Ha).
        destruct (decide (id = fileId r)) as [->|Hid]; [by left|right].
        exists r'. by rewrite lookup_insert_ne in Hr'.
    + rewrite Hq. split.
      * intros (r' & Hr' & Ha). exists r'. split; [|done].
        rewrite lookup_insert_ne; [done|congruence].
      * intros (r' & Hr' & Ha).
        destruct (decide (id = fileId r)) as [->|Hid].
        -- rewrite lookup_insert_eq in Hr'. congruence.
        -- exists r'. by rewrite lookup_insert_ne in Hr'.
Qed.

Lemma om_inv_remove (t : gmap Z FileMetadata) m r :
  om_inv t m → t !! fileId r = Some r →
  om_inv (delete (fileId r) t) (om_remove (fileSize r) (fileId r) m).
Proof.
  intros Hinv Hr. pose proof Hinv as (Hk & Hs & Hq).
  split; [by apply om_remove_sorted|]. split.
  - intros k l. rewrite om_find_remove by done.
    destruct (decide (k = fileSize r)) as [->|Hne]; [|apply Hs]. simpl.
    destruct (empty _) eqn:He; [done|]. intros [= <-]. split.
    + apply removeFileId_sorted. by eapply om_query_sorted.
    + intros Hnil. by rewrite Hnil in He.
  - intros k id. rewrite om_query_remove by done.
    destruct (decide (k = fileSize r)) as [->|Hne].
    + rewrite elem_of_removeFileId by (by eapply om_query_sorted). rewrite Hq. split.
      * intros [(r' & Hr' & Ha) Hid]. exists r'. by rewrite lookup_delete_ne.
      * intros (r' & Hr' & Ha).
        destruct (decide (id = fileId r)) as [->|Hid].
        -- by rewrite lookup_delete_eq in Hr'.
        -- rewrite lookup_delete_ne in Hr' by done. eauto.
    + rewrite Hq. split.
      * intros (r' & Hr' & Ha). exists r'. split; [|done].
        rewrite lookup_delete_ne; [done|]. intros <-. congruence.
      * intros (r' & Hr' & Ha).
        destruct (decide (id = fileId r)) as [->|Hid].
        -- by rewrite lookup_delete_eq in Hr'.
        -- rewrite lookup_delete_ne in Hr' by done. eauto.
Qed.

End OrderedIndex.

Section RangeScan.

Import InvertedIndex.
Implicit Types (m rest : list (Z * list Z)) (k lo hi : Z).

Lemma scan_shift rest it upper result :
  scan rest (S it) (S upper) result = scan rest it upper result.
Proof.
  revert it result. induction rest as [|[k v] rest IH]; intros it result; simpl.
  - done.
  - destruct (it =? upper)%nat; [done|]. apply IH.
Qed.

Lemma map_lower_bound_ge lo m :
  (∀ k, k ∈ m.*1 → lo <= k) → map_lower_bound lo m = 0%nat.
Proof.
  destruct m as [|[k v] m]; [done|]. intros Hall. simpl.
  assert (lo <= k) by (apply Hall; simpl; left).
  destruct (k <? lo) eqn:Hlt; [apply Z.ltb_lt in Hlt; lia|done].
Qed.

Lemma filter_in_range_gt lo hi m :
  (∀ k, k ∈ m.*1 → hi < k) → List.filter (in_range lo hi) m = [].
Proof.
  induction m as [|[k v] m IH]; intros Hall; [done|]. simpl.
  assert (hi < k) by (apply Hall; simpl; left).
  unfold in_range at 1. simpl.
  destruct (k <=? hi) eqn:Hle; [apply Z.leb_le in Hle; lia|].
  rewrite andb_false_r. apply IH. intros k' Hk'. apply Hall. simpl. by right.
Qed.

(** With [lo <= hi] the loop stops at [upper] and has collected the lists of
    exactly the entries in range. *)
Lemma scan_range lo hi m result :
  om_keys_sorted m → lo <= hi →
  scan (drop (map_lower_bound lo m) m) (map_lower_bound lo m) (map_upper_bound hi m) result
  = Some (result ++ concat ((List.filter (in_range lo hi) m).*2)).
Proof.
  intros Hs Hle. revert result.
  induction m as [|[k v] m IH]; intros result.
  - simpl. by rewrite app_nil_r.
  - apply om_keys_sorted_cons in Hs as [Hs Hall]. simpl.
    unfold in_range at 1. simpl.
    destruct (k <? lo) eqn:Hlt.
    + apply Z.ltb_lt in Hlt.
      assert (Hk : (k <=? hi) = true) by (apply Z.leb_le; lia).
      assert (Hk' : (lo <=? k) = false) by (apply Z.leb_gt; lia).
      rewrite Hk, Hk'. simpl drop. rewrite scan_shift. by apply IH.
    + apply Z.ltb_ge in Hlt.
      assert (Hk' : (lo <=? k) = true) by (apply Z.leb_le; lia).
      rewrite Hk'. simpl drop.
      destruct (k <=? hi) eqn:Hk; simpl.
      * rewrite scan_shift.
        assert (H0 : map_lower_bound lo m = 0%nat).
        { apply map_lower_bound_ge. intros k' Hk''. specialize (Hall k' Hk''). lia. }
        specialize (IH Hs (result ++ getFileIds v)). rewrite H0, drop_0 in IH.
        rewrite IH. unfold getFileIds. by rewrite <- app_assoc.
      * apply Z.leb_gt in Hk. rewrite filter_in_range_gt; [by rewrite app_nil_r|].
        intros k' Hk''. specialize (Hall k' Hk''). lia.
Qed.

Lemma elem_of_range_lists lo hi m id :
  om_keys_sorted m →
  id ∈ concat ((List.filter (in_range lo hi) m).*2) ↔
  ∃ k, lo <= k <= hi ∧ id ∈ om_query k m.
Proof.
  intros Hs. rewrite list_elem_of_In, in_concat. split.
  - intros (l & Hl & Hid). apply list_elem_of_In in Hl, Hid.
    apply list_elem_of_fmap in Hl as ([k l'] & -> & Hin).
    apply list_elem_of_In, filter_In in Hin as [Hin Hr]. apply list_elem_of_In in Hin.
    unfold in_range in Hr. simpl in Hr. apply andb_true_iff in Hr as [H1 H2].
    apply Z.leb_le in H1, H2. exists k. split; [lia|].
    unfold om_query. apply om_find_elem in Hin; [|done]. by rewrite Hin.
  - intros (k & Hk & Hid). unfold om_query in Hid.
    destruct (om_find k m) as [l|] eqn:Hl; [|by apply elem_of_nil in Hid].
    exists l. split; [|by apply list_elem_of_In].
    apply list_elem_of_In, list_elem_of_fmap. exists (k, l). split; [done|].
    apply list_elem_of_In, filter_In. split.
    + apply list_elem_of_In. by apply om_find_elem.
    + unfold in_range. simpl. apply andb_true_iff. split; apply Z.leb_le; lia.
Qed.

Lemma elem_of_unique x l : x ∈ unique l ↔ x ∈ l.
Proof.
  induction l as [|y l IH]; [done|].
  destruct l as [|z l].
  - done.
  - change (unique (y :: z :: l)) with (if y =? z then unique (z :: l) else y :: unique (z :: l)).
    destruct (y =? z) eqn:Heq.
    + apply Z.eqb_eq in Heq. subst z. rewrite IH, !elem_of_cons. tauto.
    + rewrite elem_of_cons, IH, !elem_of_cons. tauto.
Qed.

Lemma unique_sorted l : StronglySorted Z.le l → strictly_increasing (unique l).
Proof.
  induction l as [|y l IH]; intros Hs; [constructor|].
  inversion Hs as [|? ? Hs' Hall]; subst. rewrite Forall_forall in Hall.
  destruct l as [|z l].
  - apply strictly_increasing_cons; [constructor|]. by intros ? ?%elem_of_nil.
  - change (unique (y :: z :: l)) with (if y =? z then unique (z :: l) else y :: unique (z :: l)).
    destruct (y =? z) eqn:Heq; [by apply IH|].
    apply Z.eqb_neq in Heq. apply strictly_increasing_cons; [by apply IH|].
    intros x Hx. apply (proj1 (elem_of_unique _ _)) in Hx.
    assert (y <= z) by (apply Hall; left).
    apply elem_of_cons in Hx as [->|Hx]; [lia|].
    inversion Hs' as [|? ? _ Hall']; subst. rewrite Forall_forall in Hall'.
    specialize (Hall' x Hx). lia.
Qed.

Lemma sort_sorted l : StronglySorted Z.le (sort l).
Proof. apply StronglySorted_merge_sort; apply _. Qed.

Lemma elem_of_sort x l : x ∈ sort l ↔ x ∈ l.
Proof. unfold sort. by rewrite merge_sort_Permutation. Qed.

(** The range query on an ordered index with sorted keys. *)
Lemma queryBySizeRange_spec lo hi ix :
  om_keys_sorted (sizeIndex ix) → lo <= hi →
  ∃ ids, queryBySizeRange lo hi ix = Some ids ∧
         strictly_increasing ids ∧
         ∀ id, id ∈ ids ↔ ∃ k, lo <= k <= hi ∧ id ∈ om_query k (sizeIndex ix).
Proof.
  intros Hs Hle. unfold queryBySizeRange.
  rewrite scan_range by done. simpl.
  eexists. split; [done|]. split.
  - apply unique_sorted, sort_sorted.
  - intros id. rewrite elem_of_unique, elem_of_sort. by apply elem_of_range_lists.
Qed.

End RangeScan.

Section Paths.

Implicit Types (s ss part path : string) (parts : list string).

Lemma append_nil_l s : "" +:+ s = s.
Proof. reflexivity. Qed.

Lemma append_cons c s1 s2 : String c s1 +:+ s2 = String c (s1 +:+ s2).
Proof. reflexivity. Qed.

Lemma append_nil_r s : s +:+ "" = s.
Proof. induction s as [|c s IH]; [done|]. by rewrite append_cons, IH. Qed.

Lemma append_assoc s1 s2 s3 : (s1 +:+ s2) +:+ s3 = s1 +:+ (s2 +:+ s3).
Proof. induction s1 as [|c s1 IH]; [done|]. by rewrite !append_cons, IH. Qed.

Lemma append_snoc part c s : (part +:+ String c "") +:+ s = part +:+ String c s.
Proof. by rewrite append_assoc. Qed.

Lemma part_empty_true s : part_empty s = true ↔ s = "".
Proof. destruct s; simpl; split; congruence. Qed.

Lemma append_empty s1 s2 : s1 +:+ s2 = "" → s1 = "" ∧ s2 = "".
Proof. destruct s1; [done|]. rewrite append_cons. discriminate. Qed.

Lemma getline_parts_cons part c ss :
  getline_parts part (String c ss) =
    if Ascii.eqb c delimiter then part :: getline_parts "" ss
    else getline_parts (part +:+ String c "") ss.
Proof. reflexivity. Qed.

Lemma read_until_cons c ss :
  read_until (String c ss) =
    if Ascii.eqb c delimiter then ("", ss)
    else (String c (read_until ss).1, (read_until ss).2).
Proof. simpl. destruct (Ascii.eqb c delimiter); [done|]. by destruct (read_until ss). Qed.

(** [getline_parts] is the iteration of [getline]: the loop sees the part
    one call reads, then the parts of what is left. *)
Lemma getline_parts_read part c ss :
  getline_parts part (String c ss) =
    (part +:+ (read_until (String c ss)).1) :: getline_parts "" (read_until (String c ss)).2.
Proof.
  revert part c. induction ss as [|c' ss IH]; intros part c;
    rewrite getline_parts_cons, read_until_cons;
    destruct (Ascii.eqb c delimiter); cbn [fst snd]; try (by rewrite append_nil_r).
  - simpl. destruct (part +:+ String c "") eqn:He; [|done].
    apply append_empty in He as [_ ?]. discriminate.
  - rewrite IH. by rewrite append_snoc.
Qed.

Lemma getline_parts_unfold ss :
  getline_parts "" ss =
    match getline ss with
    | None => []
    | Some (part, rest) => part :: getline_parts "" rest
    end.
Proof.
  destruct ss as [|c ss]; [done|].
  rewrite getline_parts_read. unfold getline.
  by destruct (read_until (String c ss)).
Qed.

(** The parts the loop does not skip are the segments of the path. *)
Lemma getline_parts_segments part s :
  List.filter nonempty_part (getline_parts part s) =
  List.filter nonempty_part (split_on_delimiter part s).
Proof.
  revert part. induction s as [|c s IH]; intros part; simpl.
  - by destruct part.
  - destruct (Ascii.eqb c delimiter); simpl; by rewrite IH.
Qed.

Lemma walk_parts_segments path : accepted path → walk_parts path = segments path.
Proof.
  intros [rest ->]. unfold walk_parts, segments. simpl.
  apply getline_parts_segments.
Qed.

Lemma getOrCreatePath_loop_create parts k current :
  getOrCreatePath_loop parts k current =
  create_along (List.filter nonempty_part parts) k current.
Proof.
  revert current. induction parts as [|part parts IH]; intros current; simpl; [done|].
  destruct (part_empty part); simpl; [apply IH|]. by rewrite IH.
Qed.

Lemma getOrCreatePath_accepted path k root :
  accepted path → getOrCreatePath path k root = Some (create_along (walk_parts path) k root).
Proof.
  intros [rest ->]. unfold getOrCreatePath, walk_parts. simpl.
  destruct rest as [|c rest]; [done|].
  by rewrite getOrCreatePath_loop_create.
Qed.

Lemma getOrCreatePath_rejected path k root :
  ¬ accepted path → getOrCreatePath path k root = None.
Proof.
  intros Hna. destruct path as [|c rest]; [done|]. simpl.
  destruct (Ascii.eqb c delimiter) eqn:Hc; [|done].
  apply Ascii.eqb_eq in Hc. subst. destruct Hna. by exists rest.
Qed.

Lemma accepted_dec path : {accepted path} + {¬ accepted path}.
Proof.
  destruct path as [|c rest].
  - right. intros [? ?]. discriminate.
  - destruct (Ascii.eqb c delimiter) eqn:Hc.
    + apply Ascii.eqb_eq in Hc. subst. left. by exists rest.
    + right. intros [? [= -> _]]. by rewrite Ascii.eqb_refl in Hc.
Qed.

Lemma accepted_iff path :
  accepted path ↔ path ≠ "" ∧ String.get 0 path = Some delimiter.
Proof.
  split.
  - intros [rest ->]. done.
  - intros [Hne Hget]. destruct path as [|c rest]; [done|].
    simpl in Hget. injection Hget as ->. by exists rest.
Qed.

End Paths.

Section Tree.

Implicit Types (cs : list (string * DirectoryNode)) (key seg : string)
  (node current c : DirectoryNode) (segs keys : list string).

Lemma traverseAndFilter_unfold node :
  traverseAndFilter node = own_record node ++ children_records (children node).
Proof. by destruct node. Qed.

Lemma traverseAndFilter_with_children node cs :
  traverseAndFilter (with_children node cs) = own_record node ++ children_records cs.
Proof. by rewrite traverseAndFilter_unfold. Qed.

Lemma children_records_cons key c cs :
  children_records ((key, c) :: cs) = traverseAndFilter c ++ children_records cs.
Proof. reflexivity. Qed.

Lemma find_cons key k c cs :
  Children.find key ((k, c) :: cs) = if String.eqb k key then Some c else Children.find key cs.
Proof. reflexivity. Qed.

Lemma find_set_eq key c cs : Children.find key (Children.set key c cs) = Some c.
Proof.
  induction cs as [|[k c'] cs IH]; simpl.
  - by rewrite String.eqb_refl.
  - destruct (String.eqb k key) eqn:Hk; simpl; by rewrite Hk.
Qed.

Lemma find_set_ne key key' c cs :
  key' ≠ key → Children.find key' (Children.set key c cs) = Children.find key' cs.
Proof.
  intros Hne. induction cs as [|[k c'] cs IH]; simpl.
  - destruct (String.eqb key key') eqn:Hk; [|done].
    apply String.eqb_eq in Hk. congruence.
  - destruct (String.eqb k key) eqn:Hk; simpl.
    + apply String.eqb_eq in Hk. subst k.
      destruct (String.eqb key key') eqn:Hk'; [|done].
      apply String.eqb_eq in Hk'. congruence.
    + destruct (String.eqb k key'); [done|apply IH].
Qed.


Lemma find_erase_ne key key' cs :
  key' ≠ key → Children.find key' (Children.erase key cs) = Children.find key' cs.
Proof.
  intros Hne. induction cs as [|[k c'] cs IH]; simpl; [done|].
  destruct (String.eqb k key) eqn:Hk; simpl.
  - apply String.eqb_eq in Hk. subst k.
    destruct (String.eqb key key') eqn:Hk'; [|done].
    apply String.eqb_eq in Hk'. congruence.
  - destruct (String.eqb k key'); [done|apply IH].
Qed.

Lemma find_None_keys key cs : Children.find key cs = None ↔ key ∉ cs.*1.
Proof.
  induction cs as [|[k c] cs IH]; simpl.
  - split; [intros _ ?%elem_of_nil; done|done].
  - rewrite not_elem_of_cons. destruct (String.eqb k key) eqn:Hk.
    + apply String.eqb_eq in Hk. subst. split; [done|]. intros [? _]. done.
    + apply String.eqb_neq in Hk. rewrite IH. split; [auto|tauto].
Qed.

Lemma find_Some_elem key c cs : Children.find key cs = Some c → (key, c) ∈ cs.
Proof.
  induction cs as [|[k c'] cs IH]; simpl; [done|].
  destruct (String.eqb k key) eqn:Hk.
  - apply String.eqb_eq in Hk. subst. intros [= ->]. left.
  - intros ?. right. auto.
Qed.

Lemma erase_absent key cs : key ∉ cs.*1 → Children.erase key cs = cs.
Proof.
  induction cs as [|[k c] cs IH]; simpl; [done|].
  rewrite not_elem_of_cons. intros [Hne Hnin].
  destruct (String.eqb k key) eqn:Hk.
  - apply String.eqb_eq in Hk. congruence.
  - by rewrite IH.
Qed.

Lemma set_keys key c cs k :
  k ∈ (Children.set key c cs).*1 ↔ k = key ∨ k ∈ cs.*1.
Proof.
  induction cs as [|[k' c'] cs IH]; simpl.
  - rewrite elem_of_cons. split; [intros [?|?%elem_of_nil]|intros [?|?%elem_of_nil]]; tauto.
  - destruct (String.eqb k' key) eqn:Hk; simpl.
    + apply String.eqb_eq in Hk. subst. rewrite !elem_of_cons. tauto.
    + rewrite !elem_of_cons, IH. tauto.
Qed.

Lemma set_keys_NoDup key c cs : NoDup (cs.*1) → NoDup ((Children.set key c cs).*1).
Proof.
  induction cs as [|[k' c'] cs IH]; simpl; intros Hnd.
  - constructor; [by intros ?%elem_of_nil|constructor].
  - apply NoDup_cons in Hnd as [Hnin Hnd].
    destruct (String.eqb k' key) eqn:Hk; simpl.
    + by apply NoDup_cons.
    + apply String.eqb_neq in Hk. apply NoDup_cons. split; [|by apply IH].
      rewrite set_keys. intros [?|?]; [congruence|done].
Qed.

Lemma erase_keys key cs k : k ∈ (Children.erase key cs).*1 → k ∈ cs.*1.
Proof.
  induction cs as [|[k' c'] cs IH]; simpl; [done|].
  destruct (String.eqb k' key); simpl; rewrite ?elem_of_cons; intros; intuition.
Qed.

Lemma erase_keys_NoDup key cs : NoDup (cs.*1) → NoDup ((Children.erase key cs).*1).
Proof.
  induction cs as [|[k' c'] cs IH]; simpl; intros Hnd; [done|].
  apply NoDup_cons in Hnd as [Hnin Hnd].
  destruct (String.eqb k' key); simpl; [by apply IH|].
  apply NoDup_cons. split; [|by apply IH]. intros ?%erase_keys. done.
Qed.

Lemma set_cons key c k c' cs :
  Children.set key c ((k, c') :: cs) =
    if String.eqb k key then (k, c) :: cs else (k, c') :: Children.set key c cs.
Proof. reflexivity. Qed.

Lemma erase_cons key k c' cs :
  Children.erase key ((k, c') :: cs) =
    if String.eqb k key then Children.erase key cs else (k, c') :: Children.erase key cs.
Proof. reflexivity. Qed.

(** The records below the children, split at one key. *)
Lemma children_records_split key cs :
  NoDup (cs.*1) →
  children_records cs ≡ₚ child_records key cs ++ children_records (Children.erase key cs).
Proof.
  unfold child_records. induction cs as [|[k c] cs IH]; intros Hnd; [done|].
  rewrite fmap_cons in Hnd. apply NoDup_cons in Hnd as [Hnin Hnd].
  rewrite find_cons, erase_cons, children_records_cons.
  destruct (String.eqb k key) eqn:Hk.
  - apply String.eqb_eq in Hk. subst. by rewrite erase_absent.
  - rewrite children_records_cons, (IH Hnd).
    destruct (Children.find key cs); [|done].
    rewrite !app_assoc. f_equiv. apply Permutation_app_comm.
Qed.

Lemma children_records_set key c cs :
  NoDup (cs.*1) →
  children_records (Children.set key c cs)
  ≡ₚ traverseAndFilter c ++ children_records (Children.erase key cs).
Proof.
  induction cs as [|[k c'] cs IH]; intros Hnd.
  - change (Children.set key c []) with [(key, c)]. by rewrite children_records_cons.
  - rewrite fmap_cons in Hnd. apply NoDup_cons in Hnd as [Hnin Hnd].
    rewrite set_cons, erase_cons.
    destruct (String.eqb k key) eqn:Hk.
    + apply String.eqb_eq in Hk. subst. rewrite children_records_cons.
      by rewrite erase_absent.
    + rewrite !children_records_cons, (IH Hnd).
      rewrite !app_assoc. f_equiv. apply Permutation_app_comm.
Qed.

(** *** Well-formed trees *)

Lemma wf_node_inv node :
  wf_node node →
  NoDup ((children node).*1) ∧
  (isDirectory node = false → is_Some (fileData node)) ∧
  Forall (fun kc => name kc.2 = kc.1 ∧ wf_node kc.2) (children node).
Proof. by inversion 1. Qed.

Lemma wf_node_intro node :
  NoDup ((children node).*1) →
  (isDirectory node = false → is_Some (fileData node)) →
  Forall (fun kc => name kc.2 = kc.1 ∧ wf_node kc.2) (children node) →
  wf_node node.
Proof. destruct node. by constructor. Qed.

Lemma wf_child node key c :
  wf_node node → Children.find key (children node) = Some c → name c = key ∧ wf_node c.
Proof.
  intros (_ & _ & Hall)%wf_node_inv Hfind%find_Some_elem.
  rewrite Forall_forall in Hall. apply (Hall (key, c) Hfind).
Qed.

Lemma Forall_set (P : string * DirectoryNode → Prop) key c cs :
  Forall P cs → P (key, c) → Forall P (Children.set key c cs).
Proof.
  intros Hall HP. induction cs as [|[k c'] cs IH].
  - by constructor.
  - rewrite set_cons. inversion Hall; subst.
    destruct (String.eqb k key) eqn:Hk.
    + apply String.eqb_eq in Hk. subst. by constructor.
    + constructor; [done|by apply IH].
Qed.

Lemma Forall_erase (P : string * DirectoryNode → Prop) key cs :
  Forall P cs → Forall P (Children.erase key cs).
Proof.
  intros Hall. induction cs as [|[k c'] cs IH]; [done|].
  rewrite erase_cons. inversion Hall; subst.
  destruct (String.eqb k key); [by apply IH|constructor; [done|by apply IH]].
Qed.

Lemma wf_set_child node key c :
  wf_node node → wf_node c → name c = key →
  wf_node (with_children node (Children.set key c (children node))).
Proof.
  intros (Hnd & Hfile & Hall)%wf_node_inv Hc Hname. apply wf_node_intro; simpl.
  - by apply set_keys_NoDup.
  - done.
  - by apply Forall_set.
Qed.

Lemma wf_erase_child node key :
  wf_node node → wf_node (with_children node (Children.erase key (children node))).
Proof.
  intros (Hnd & Hfile & Hall)%wf_node_inv. apply wf_node_intro; simpl.
  - by apply erase_keys_NoDup.
  - done.
  - by apply Forall_erase.
Qed.

Lemma wf_new_directory seg : wf_node (new_directory seg).
Proof. constructor; [constructor|done|constructor]. Qed.

Lemma wf_default_child node seg :
  wf_node node →
  let child := default (new_directory seg) (Children.find seg (children node)) in
  name child = seg ∧ wf_node child.
Proof.
  intros Hwf. destruct (Children.find seg (children node)) as [c|] eqn:Hfind; simpl.
  - by eapply wf_child.
  - split; [done|apply wf_new_directory].
Qed.

Lemma child_records_default key cs :
  child_records key cs
  = traverseAndFilter (default (new_directory key) (Children.find key cs)).
Proof. unfold child_records. by destruct (Children.find key cs). Qed.

(** *** [create_along]: the walk of [getOrCreatePath] *)

Section CreateAlong.

Variable k : DirectoryNode → DirectoryNode.

Lemma name_create_along segs current :
  (∀ n, name (k n) = name n) → name (create_along segs k current) = name current.
Proof. intros Hk. destruct segs; simpl; [apply Hk|done]. Qed.

Lemma isDirectory_create_along segs current :
  (∀ n, isDirectory (k n) = isDirectory n) →
  isDirectory (create_along segs k current) = isDirectory current.
Proof. intros Hk. destruct segs; simpl; [apply Hk|done]. Qed.

Lemma wf_create_along segs current :
  (∀ n, wf_node n → wf_node (k n)) → (∀ n, name (k n) = name n) →
  wf_node current → wf_node (create_along segs k current).
Proof.
  intros Hk Hname. revert current.
  induction segs as [|seg segs IH]; intros current Hwf; simpl; [by apply Hk|].
  destruct (wf_default_child current seg Hwf) as [Hn Hc].
  apply wf_set_child; [done|by apply IH|]. by rewrite name_create_along.
Qed.

Lemma node_at_create_along segs current :
  node_at segs (create_along segs k current) = Some (k (path_node segs current)).
Proof.
  revert current. induction segs as [|seg segs IH]; intros current; simpl; [done|].
  by rewrite find_set_eq, IH.
Qed.

End CreateAlong.

Lemma wf_path_node segs current : wf_node current → wf_node (path_node segs current).
Proof.
  revert current. induction segs as [|seg segs IH]; intros current Hwf; simpl; [done|].
  apply IH. by apply wf_default_child.
Qed.

(** The records of the tree split into those below the node the walk ends
    at and the rest, which the walk leaves alone. *)
Lemma create_along_records segs current :
  wf_node current →
  ∃ ctx,
    traverseAndFilter current ≡ₚ traverseAndFilter (path_node segs current) ++ ctx ∧
    ∀ k, traverseAndFilter (create_along segs k current)
         ≡ₚ traverseAndFilter (k (path_node segs current)) ++ ctx.
Proof.
  revert current. induction segs as [|seg segs IH]; intros current Hwf.
  - exists []. split; [by rewrite app_nil_r|]. intros k. by rewrite app_nil_r.
  - destruct (wf_default_child current seg Hwf) as [Hn Hc].
    destruct (IH _ Hc) as (ctx & Hctx & Hk).
    cbn [create_along path_node].
    apply wf_node_inv in Hwf as (Hnd & _ & _).
    set (child := default (new_directory seg) (Children.find seg (children current))) in *.
    exists (ctx ++ own_record current
                ++ children_records (Children.erase seg (children current))).
    split.
    + rewrite (traverseAndFilter_unfold current).
      rewrite (children_records_split seg) by done.
      rewrite child_records_default. fold child. rewrite Hctx. solve_Permutation.
    + intros k. rewrite traverseAndFilter_with_children.
      rewrite children_records_set by done. rewrite Hk. solve_Permutation.
Qed.

(** *** [findFileNode] and [detach] *)

Lemma findFileNode_loop_node_at parts current :
  findFileNode_loop parts current
  = node_at (List.filter nonempty_part parts) current.
Proof.
  revert current. induction parts as [|part parts IH]; intros current; simpl; [done|].
  destruct (part_empty part); simpl; [apply IH|].
  destruct (Children.find part (children current)); [apply IH|done].
Qed.

Lemma findFileNode_accepted fullPath root :
  accepted fullPath → findFileNode fullPath root = node_at (walk_parts fullPath) root.
Proof.
  intros [rest ->]. unfold findFileNode, walk_parts. simpl.
  destruct rest as [|c rest]; [done|]. apply findFileNode_loop_node_at.
Qed.

Lemma findFileNode_rejected fullPath root :
  ¬ accepted fullPath → findFileNode fullPath root = None.
Proof.
  intros Hna. destruct fullPath as [|c rest]; [done|]. simpl.
  destruct (Ascii.eqb c delimiter) eqn:Hc; [|done].
  apply Ascii.eqb_eq in Hc. subst. destruct Hna. by exists rest.
Qed.

Lemma detach_one seg nm current :
  detach [seg] nm current = with_children current (Children.erase nm (children current)).
Proof. reflexivity. Qed.

Lemma detach_more seg seg' segs nm current :
  detach (seg :: seg' :: segs) nm current =
    match Children.find seg (children current) with
    | None => current
    | Some child =>
        with_children current
          (Children.set seg (detach (seg' :: segs) nm child) (children current))
    end.
Proof. reflexivity. Qed.

Lemma name_detach segs nm current : name (detach segs nm current) = name current.
Proof.
  destruct segs as [|seg [|seg' segs]]; [done..|].
  rewrite detach_more. by destruct (Children.find seg (children current)).
Qed.

Lemma isDirectory_detach segs nm current :
  isDirectory (detach segs nm current) = isDirectory current.
Proof.
  destruct segs as [|seg [|seg' segs]]; [done..|].
  rewrite detach_more. by destruct (Children.find seg (children current)).
Qed.

Lemma wf_detach segs nm current : wf_node current → wf_node (detach segs nm current).
Proof.
  revert current. induction segs as [|seg segs IH]; intros current Hwf; [done|].
  destruct segs as [|seg' segs].
  - rewrite detach_one. by apply wf_erase_child.
  - rewrite detach_more.
    destruct (Children.find seg (children current)) as [c|] eqn:Hfind; [|done].
    destruct (wf_child _ _ _ Hwf Hfind) as [Hn Hc].
    apply wf_set_child; [done|by apply IH|]. by rewrite name_detach.
Qed.


(** Detaching the node found along [segs] takes exactly the records below
    it out of the traversal. *)
Lemma detach_records segs current f :
  wf_node current → node_at segs current = Some f → segs ≠ [] →
  traverseAndFilter current
  ≡ₚ traverseAndFilter f ++ traverseAndFilter (detach segs (name f) current).
Proof.
  revert current. induction segs as [|seg segs IH]; intros current Hwf Hat Hne; [done|].
  cbn [node_at] in Hat.
  destruct (Children.find seg (children current)) as [c|] eqn:Hfind; [|done].
  destruct (wf_child _ _ _ Hwf Hfind) as [Hn Hc].
  pose proof (wf_node_inv _ Hwf) as (Hnd & _ & _).
  rewrite (traverseAndFilter_unfold current).
  rewrite (children_records_split seg) by done.
  unfold child_records. rewrite Hfind.
  destruct segs as [|seg' segs].
  - injection Hat as ->. rewrite detach_one, Hn, traverseAndFilter_with_children.
    solve_Permutation.
  - rewrite detach_more, Hfind, traverseAndFilter_with_children.
    rewrite children_records_set by done.
    rewrite (IH c Hc Hat) by done. solve_Permutation.
Qed.

End Tree.

Section Store.

Import FileSystemSimulator.
Implicit Types (fs : FileSystemSimulator.t) (path fileName fullPath : string).

Lemma addFile_accepted path fileName ext size own time fs :
  accepted path →
  addFile path fileName ext size own time fs =
    (true,
     let fileData := newFileData path fileName ext size own time fs in
     mk (create_along (walk_parts path)
           (attach fileName (mkNode fileName false (Some fileData) [])) (root fs))
        (<[fileId fileData := fileData]> (fileMetadataMap fs))
        (InvertedIndex.addFile fileData (invertedIndex fs))
        (nextFileId fs + 1)).
Proof. intros Hacc. unfold addFile. by rewrite getOrCreatePath_accepted. Qed.

Lemma addFile_rejected path fileName ext size own time fs :
  ¬ accepted path → addFile path fileName ext size own time fs = (false, fs).
Proof. intros Hna. unfold addFile. by rewrite getOrCreatePath_rejected. Qed.

Lemma fileId_newFileData path fileName ext size own time fs :
  fileId (newFileData path fileName ext size own time fs) = nextFileId fs.
Proof. reflexivity. Qed.

Lemma wf_file_node fileName file : wf_node (mkNode fileName false (Some file) []).
Proof. constructor; [constructor|by eexists|constructor]. Qed.

Lemma wf_attach fileName file node :
  wf_node node → wf_node (attach fileName (mkNode fileName false (Some file) []) node).
Proof. intros Hwf. apply wf_set_child; [done|apply wf_file_node|done]. Qed.

(** What an add does to the records of the tree: the new record comes in,
    the records below a child of the same name in the target directory go
    out, the rest stays. *)
Lemma attach_records segs fileName file root :
  wf_node root →
  ∃ kept,
    traverseAndFilter root
    ≡ₚ child_records fileName (children (path_node segs root)) ++ kept ∧
    traverseAndFilter
      (create_along segs (attach fileName (mkNode fileName false (Some file) [])) root)
    ≡ₚ file :: kept.
Proof.
  intros Hwf. destruct (create_along_records segs root Hwf) as (ctx & Hctx & Hk).
  pose proof (wf_path_node segs root Hwf) as Hpn.
  apply wf_node_inv in Hpn as (Hnd & _ & _).
  set (pn := path_node segs root) in *.
  exists (own_record pn ++ children_records (Children.erase fileName (children pn)) ++ ctx).
  split.
  - rewrite Hctx, (traverseAndFilter_unfold pn).
    rewrite (children_records_split fileName) by done. solve_Permutation.
  - rewrite Hk. unfold attach. rewrite traverseAndFilter_with_children.
    rewrite children_records_set by done.
    change (traverseAndFilter (mkNode fileName false (Some file) [])) with [file].
    solve_Permutation.
Qed.

Lemma store_inv_init : store_inv init.
Proof.
  split; simpl.
  - apply um_inv_empty.
  - apply om_inv_empty.
  - apply um_inv_empty.
  - apply um_inv_empty.
  - intros id r Hr. by rewrite lookup_empty in Hr.
  - by intros r ?%elem_of_nil.
  - constructor.
  - apply wf_new_directory.
  - done.
Qed.

Lemma store_inv_fresh fs : store_inv fs → fileMetadataMap fs !! nextFileId fs = None.
Proof.
  intros Hinv. destruct (fileMetadataMap fs !! nextFileId fs) as [r|] eqn:Hr; [|done].
  apply (inv_ids _ Hinv) in Hr as [_ ?]. lia.
Qed.

Lemma store_inv_tree_lt fs r :
  store_inv fs → r ∈ traverseAndFilter (root fs) → fileId r < nextFileId fs.
Proof.
  intros Hinv Hr. apply (inv_tree_table _ Hinv) in Hr.
  by apply (inv_ids _ Hinv) in Hr as [_ ?].
Qed.

Lemma store_inv_addFile path fileName ext size own time fs :
  store_inv fs → store_inv (addFile path fileName ext size own time fs).2.
Proof.
  intros Hinv. destruct (accepted_dec path) as [Hacc|Hna];
    [|by rewrite addFile_rejected].
  rewrite addFile_accepted by done. cbn [snd].
  set (file := newFileData path fileName ext size own time fs).
  pose proof (store_inv_fresh fs Hinv) as Hfresh.
  assert (Hid : fileId file = nextFileId fs) by done.
  destruct (attach_records (walk_parts path) fileName file (root fs) (inv_wf _ Hinv))
    as (kept & Hold & Hnew).
  assert (Hkept : ∀ r, r ∈ kept → r ∈ traverseAndFilter (root fs)).
  { intros r Hr. rewrite Hold. apply elem_of_app. by right. }
  split; cbn [root fileMetadataMap invertedIndex nextFileId
              InvertedIndex.addFile InvertedIndex.extensionIndex InvertedIndex.sizeIndex
              InvertedIndex.ownerIndex InvertedIndex.timeIndex].
  - apply um_inv_add; [apply Hinv|by rewrite Hid].
  - apply om_inv_add; [apply Hinv|by rewrite Hid].
  - apply um_inv_add; [apply Hinv|by rewrite Hid].
  - apply um_inv_add; [apply Hinv|by rewrite Hid].
  - intros id r. rewrite Hid. destruct (decide (id = nextFileId fs)) as [->|Hne].
    + rewrite lookup_insert_eq. intros [= <-]. split; [done|lia].
    + rewrite lookup_insert_ne by done. intros Hr.
      apply (inv_ids _ Hinv) in Hr as [? ?]. split; [done|lia].
  - intros r. rewrite Hnew, elem_of_cons. intros [->|Hr].
    + by rewrite lookup_insert_eq.
    + pose proof (store_inv_tree_lt fs r Hinv (Hkept r Hr)).
      rewrite lookup_insert_ne by lia. apply (inv_tree_table _ Hinv). by apply Hkept.
  - rewrite Hnew, fmap_cons. apply NoDup_cons. split.
    + intros (r & Heq & Hr)%list_elem_of_fmap.
      pose proof (store_inv_tree_lt fs r Hinv (Hkept r Hr)). lia.
    + pose proof (inv_tree_nodup _ Hinv) as Hnd.
      rewrite Hold, fmap_app in Hnd. by apply NoDup_app in Hnd as (_ & _ & ?).
  - apply wf_create_along; [intros n; apply wf_attach|done|apply Hinv].
  - rewrite isDirectory_create_along; [apply Hinv|done].
Qed.

Lemma findFileNode_Some fullPath root f :
  findFileNode fullPath root = Some f →
  accepted fullPath ∧ node_at (walk_parts fullPath) root = Some f.
Proof.
  intros Hfind. destruct (accepted_dec fullPath) as [Hacc|Hna].
  - split; [done|]. by rewrite <- findFileNode_accepted.
  - by rewrite findFileNode_rejected in Hfind.
Qed.

(** A file node found from a directory root is not the root. *)
Lemma found_file_not_root fullPath root f :
  isDirectory root = true → isDirectory f = false →
  node_at (walk_parts fullPath) root = Some f → walk_parts fullPath ≠ [].
Proof. intros Hroot Hf Hat Hnil. rewrite Hnil in Hat. simpl in Hat. congruence. Qed.

Lemma own_record_file f file :
  isDirectory f = false → fileData f = Some file → own_record f = [file].
Proof. unfold own_record. by intros -> ->. Qed.

Lemma removeFile_file fullPath fs f :
  findFileNode fullPath (root fs) = Some f → isDirectory f = false →
  removeFile fullPath fs =
    (true,
     let root' := detach (walk_parts fullPath) (name f) (root fs) in
     match fileData f with
     | Some file =>
         mk root' (delete (fileId file) (fileMetadataMap fs))
            (InvertedIndex.removeFile file (invertedIndex fs)) (nextFileId fs)
     | None => mk root' (fileMetadataMap fs) (invertedIndex fs) (nextFileId fs)
     end).
Proof. intros Hfind Hf. unfold removeFile. rewrite Hfind, Hf. by destruct (fileData f). Qed.

Lemma removeFile_not_found fullPath fs :
  findFileNode fullPath (root fs) = None → removeFile fullPath fs = (false, fs).
Proof. intros Hfind. unfold removeFile. by rewrite Hfind. Qed.

Lemma removeFile_directory fullPath fs f :
  findFileNode fullPath (root fs) = Some f → isDirectory f = true →
  removeFile fullPath fs = (false, fs).
Proof. intros Hfind Hf. unfold removeFile. by rewrite Hfind, Hf. Qed.

Lemma store_inv_removeFile fullPath fs :
  store_inv fs → store_inv (removeFile fullPath fs).2.
Proof.
  intros Hinv.
  destruct (findFileNode fullPath (root fs)) as [f|] eqn:Hfind;
    [|by rewrite removeFile_not_found].
  destruct (isDirectory f) eqn:Hf; [by erewrite removeFile_directory|].
  erewrite removeFile_file by done. cbn [snd].
  apply findFileNode_Some in Hfind as [Hacc Hat].
  pose proof (found_file_not_root _ _ _ (inv_root _ Hinv) Hf Hat) as Hne.
  pose proof (detach_records _ _ _ (inv_wf _ Hinv) Hat Hne) as Hrecs.
  set (root' := detach (walk_parts fullPath) (name f) (root fs)) in *.
  assert (Hsub : ∀ r, r ∈ traverseAndFilter root' → r ∈ traverseAndFilter (root fs)).
  { intros r Hr. rewrite Hrecs. apply elem_of_app. by right. }
  pose proof (inv_tree_nodup _ Hinv) as Hnd.
  rewrite Hrecs, fmap_app in Hnd. apply NoDup_app in Hnd as (_ & Hdisj & Hnd').
  assert (Hwf' : wf_node root') by apply wf_detach, Hinv.
  assert (Hdir' : isDirectory root' = true)
    by (unfold root'; rewrite isDirectory_detach; apply Hinv).
  destruct (fileData f) as [file|] eqn:Hdata; simpl.
  - assert (Hin : file ∈ traverseAndFilter f).
    { rewrite traverseAndFilter_unfold, (own_record_file f file) by done. left. }
    assert (Htab : fileMetadataMap fs !! fileId file = Some file).
    { apply (inv_tree_table _ Hinv). rewrite Hrecs. apply elem_of_app. by left. }
    split; cbn [root fileMetadataMap invertedIndex nextFileId
                InvertedIndex.removeFile InvertedIndex.extensionIndex
                InvertedIndex.sizeIndex InvertedIndex.ownerIndex InvertedIndex.timeIndex];
      try done.
    + apply um_inv_remove; [apply Hinv|done].
    + apply om_inv_remove; [apply Hinv|done].
    + apply um_inv_remove; [apply Hinv|done].
    + apply um_inv_remove; [apply Hinv|done].
    + intros id r Hr. apply lookup_delete_Some in Hr as [_ Hr].
      by apply (inv_ids _ Hinv).
    + intros r Hr. rewrite lookup_delete_ne.
      * apply (inv_tree_table _ Hinv). by apply Hsub.
      * intros Heq. apply (Hdisj (fileId file)).
        -- by apply list_elem_of_fmap_2.
        -- rewrite Heq. by apply list_elem_of_fmap_2.
  - split; cbn [root fileMetadataMap invertedIndex nextFileId]; try done;
      try apply Hinv.
    intros r Hr. apply (inv_tree_table _ Hinv). by apply Hsub.
Qed.

Lemma store_inv_step fs o : store_inv fs → store_inv (step fs o).
Proof.
  destruct o; simpl; [apply store_inv_addFile|apply store_inv_removeFile].
Qed.

Lemma store_inv_run_from fs ops : store_inv fs → store_inv (run fs ops).
Proof.
  revert fs. induction ops as [|o ops IH]; intros fs Hinv; simpl; [done|].
  apply IH. by apply store_inv_step.
Qed.

(** Every store a history of adds and removes leads to is consistent. *)
Lemma store_inv_run ops : store_inv (run init ops).
Proof. apply store_inv_run_from, store_inv_init. Qed.

End Store.

Section Queries.

Import FileSystemSimulator.
Implicit Types (fs : FileSystemSimulator.t) (r : FileMetadata).





Lemma omap_cons_unfold {A B} (f : A → option B) x (l : list A) :
  omap f (x :: l) = match f x with Some y => y :: omap f l | None => omap f l end.
Proof. reflexivity. Qed.

Lemma elem_of_resolve fs ids r :
  store_inv fs →
  r ∈ resolve ids fs ↔ fileId r ∈ ids ∧ fileMetadataMap fs !! fileId r = Some r.
Proof.
  intros Hinv. unfold resolve. rewrite list_elem_of_omap. split.
  - intros (id & Hid & Hr). pose proof (inv_ids _ Hinv _ _ Hr) as [-> _]. done.
  - intros [Hid Hr]. eauto.
Qed.

(** The ids of the records an indexed query returns: the ids the index
    gave, in the same order, those the table does not hold dropped. *)
Lemma resolve_ids fs ids :
  store_inv fs →
  fileId <$> resolve ids fs
  = List.filter (fun id => bool_decide (is_Some (fileMetadataMap fs !! id))) ids.
Proof.
  intros Hinv. unfold resolve. induction ids as [|id ids IH]; [done|].
  rewrite omap_cons_unfold. cbn [List.filter].
  destruct (fileMetadataMap fs !! id) as [r|] eqn:Hr.
  - rewrite bool_decide_eq_true_2 by eauto. rewrite fmap_cons, IH.
    by pose proof (inv_ids _ Hinv _ _ Hr) as [-> _].
  - rewrite bool_decide_eq_false_2; [done|]. by intros [? ?].
Qed.

Lemma strictly_increasing_filter (P : Z → bool) l :
  strictly_increasing l → strictly_increasing (List.filter P l).
Proof.
  induction l as [|x l IH]; intros Hs; [done|].
  apply strictly_increasing_cons_inv in Hs as [Hs Hall]. simpl.
  destruct (P x); [|by apply IH].
  apply strictly_increasing_cons; [by apply IH|].
  intros y Hy. apply Hall. apply list_elem_of_In, filter_In in Hy as [Hy _].
  by apply list_elem_of_In.
Qed.

Lemma queryByExtensionIndexed_spec fs ext r :
  store_inv fs →
  r ∈ queryByExtensionIndexed ext fs ↔
  fileMetadataMap fs !! fileId r = Some r ∧ extension r = ext.
Proof.
  intros Hinv. unfold queryByExtensionIndexed, InvertedIndex.queryByExtension.
  rewrite elem_of_resolve by done.
  pose proof (inv_extension _ Hinv) as [_ Hq]. rewrite Hq. split.
  - intros [(r' & Hr' & He) Hr]. split; [done|congruence].
  - intros [Hr He]. eauto.
Qed.

Lemma queryByOwnerIndexed_spec fs own r :
  store_inv fs →
  r ∈ queryByOwnerIndexed own fs ↔
  fileMetadataMap fs !! fileId r = Some r ∧ owner r = own.
Proof.
  intros Hinv. unfold queryByOwnerIndexed, InvertedIndex.queryByOwner.
  rewrite elem_of_resolve by done.
  pose proof (inv_owner _ Hinv) as [_ Hq]. rewrite Hq. split.
  - intros [(r' & Hr' & He) Hr]. split; [done|congruence].
  - intros [Hr He]. eauto.
Qed.

Lemma queryBySizeRangeIndexed_spec fs lo hi :
  store_inv fs → lo <= hi →
  ∃ rs, queryBySizeRangeIndexed lo hi fs = Some rs ∧
        strictly_increasing (fileId <$> rs) ∧
        ∀ r, r ∈ rs ↔ fileMetadataMap fs !! fileId r = Some r ∧ lo <= fileSize r <= hi.
Proof.
  intros Hinv Hle. pose proof (inv_size _ Hinv) as (Hk & _ & Hq).
  destruct (queryBySizeRange_spec lo hi (invertedIndex fs) Hk Hle)
    as (ids & Hids & Hsorted & Hmem).
  unfold queryBySizeRangeIndexed. rewrite Hids. eexists. split; [done|]. split.
  - rewrite resolve_ids by done. by apply strictly_increasing_filter.
  - intros r. rewrite elem_of_resolve by done. rewrite Hmem. split.
    + intros [(k & Hkr & Hin) Hr]. split; [done|].
      apply Hq in Hin as (r' & Hr' & <-). congruence.
    + intros [Hr Hsz]. split; [|done]. exists (fileSize r). split; [done|].
      apply Hq. eauto.
Qed.

Lemma queryByExtensionIndexed_ids_sorted fs ext :
  store_inv fs → strictly_increasing (fileId <$> queryByExtensionIndexed ext fs).
Proof.
  intros Hinv. unfold queryByExtensionIndexed. rewrite resolve_ids by done.
  apply strictly_increasing_filter. eapply um_query_sorted, Hinv.
Qed.

End Queries.



Section Identifiers.

Import FileSystemSimulator.
Implicit Types (fs : FileSystemSimulator.t) (ops : list op).

Lemma nextFileId_addFile path fileName ext size own time fs :
  nextFileId (addFile path fileName ext size own time fs).2
  = if (addFile path fileName ext size own time fs).1
    then nextFileId fs + 1 else nextFileId fs.
Proof.
  destruct (accepted_dec path) as [Hacc|Hna].
  - by rewrite addFile_accepted.
  - by rewrite addFile_rejected.
Qed.

Lemma nextFileId_removeFile fullPath fs :
  nextFileId (removeFile fullPath fs).2 = nextFileId fs.
Proof.
  unfold removeFile. destruct (findFileNode fullPath (root fs)) as [f|]; [|done].
  destruct (isDirectory f); [done|]. by destruct (fileData f).
Qed.

Lemma assigned_ids_cons fs o ops :
  assigned_ids fs (o :: ops) =
    match o with
    | Add path fileName ext size own time =>
        if (addFile path fileName ext size own time fs).1 then [nextFileId fs] else []
    | Remove _ => []
    end ++ assigned_ids (step fs o) ops.
Proof. reflexivity. Qed.

(** The counter after a history: one more for every id handed out.  The
    embedding on [Z] agrees with the [int] counter of the program as long
    as this value stays within [int]. *)
Lemma nextFileId_run fs ops :
  nextFileId (run fs ops) = nextFileId fs + Z.of_nat (length (assigned_ids fs ops)).
Proof.
  revert fs. induction ops as [|o ops IH]; intros fs; [simpl; lia|].
  rewrite assigned_ids_cons, length_app. cbn [run foldl]. fold (run (step fs o) ops).
  rewrite IH. destruct o as [path fileName ext size own time|fullPath]; cbn [step].
  - rewrite nextFileId_addFile.
    destruct (addFile path fileName ext size own time fs).1; simpl; lia.
  - rewrite nextFileId_removeFile. simpl. lia.
Qed.

Lemma nextFileId_step fs o : nextFileId fs <= nextFileId (step fs o).
Proof.
  destruct o as [path fileName ext size own time|fullPath]; cbn [step].
  - rewrite nextFileId_addFile.
    destruct (addFile path fileName ext size own time fs).1; lia.
  - rewrite nextFileId_removeFile. lia.
Qed.

Lemma assigned_ids_ge fs ops id :
  id ∈ assigned_ids fs ops → nextFileId fs <= id.
Proof.
  revert fs. induction ops as [|o ops IH]; intros fs; [by intros ?%elem_of_nil|].
  rewrite assigned_ids_cons, elem_of_app. intros [Hid|Hid].
  - destruct o as [path fileName ext size own time|fullPath];
      [|by apply elem_of_nil in Hid].
    destruct (addFile path fileName ext size own time fs).1;
      [|by apply elem_of_nil in Hid].
    apply list_elem_of_singleton in Hid. lia.
  - apply IH in Hid. pose proof (nextFileId_step fs o). lia.
Qed.

Lemma assigned_ids_sorted fs ops : strictly_increasing (assigned_ids fs ops).
Proof.
  revert fs. induction ops as [|o ops IH]; intros fs; [constructor|].
  rewrite assigned_ids_cons.
  destruct o as [path fileName ext size own time|fullPath]; [|apply IH].
  destruct (addFile path fileName ext size own time fs).1 eqn:Hok; [|apply IH].
  apply strictly_increasing_cons; [apply IH|].
  intros id Hid%assigned_ids_ge. cbn [step] in Hid.
  rewrite nextFileId_addFile, Hok in Hid. lia.
Qed.

Lemma assigned_ids_lt fs ops id :
  id ∈ assigned_ids fs ops → id < nextFileId (run fs ops).
Proof.
  revert fs. induction ops as [|o ops IH]; intros fs; [by intros ?%elem_of_nil|].
  rewrite assigned_ids_cons, elem_of_app. cbn [run foldl]. fold (run (step fs o) ops).
  intros [Hid|Hid]; [|by apply IH].
  destruct o as [path fileName ext size own time|fullPath];
    [|by apply elem_of_nil in Hid].
  destruct (addFile path fileName ext size own time fs).1 eqn:Hok;
    [|by apply elem_of_nil in Hid].
  apply list_elem_of_singleton in Hid. subst id.
  rewrite nextFileId_run. cbn [step]. rewrite nextFileId_addFile, Hok. lia.
Qed.

End Identifiers.

Section IntCounterExact.

Import FileSystemSimulator.

Lemma wrap_in_range n :
  IntCounter.INT_MIN ≤ n ≤ IntCounter.INT_MAX → IntCounter.wrap n = n.
Proof.
  unfold IntCounter.wrap, IntCounter.INT_MIN, IntCounter.INT_MAX. intros Hn.
  rewrite Z.mod_small by lia. lia.
Qed.

Lemma wrap_past_INT_MAX : IntCounter.wrap (IntCounter.INT_MAX + 1) = IntCounter.INT_MIN.
Proof. reflexivity. Qed.

Lemma IntCounter_addFile_accepted path fileName ext size own time fs :
  accepted path →
  IntCounter.addFile path fileName ext size own time fs =
    (true,
     let fileData := newFileData path fileName ext size own time fs in
     mk (create_along (walk_parts path)
           (attach fileName (mkNode fileName false (Some fileData) [])) (root fs))
        (<[fileId fileData := fileData]> (fileMetadataMap fs))
        (InvertedIndex.addFile fileData (invertedIndex fs))
        (IntCounter.wrap (nextFileId fs + 1))).
Proof. intros Hacc. unfold IntCounter.addFile. by rewrite getOrCreatePath_accepted. Qed.

Lemma IntCounter_addFile_rejected path fileName ext size own time fs :
  ¬ accepted path → IntCounter.addFile path fileName ext size own time fs = (false, fs).
Proof. intros Hna. unfold IntCounter.addFile. by rewrite getOrCreatePath_rejected. Qed.

(** Below [INT_MAX] the increment is the increment of the integers. *)
Lemma IntCounter_addFile_exact path fileName ext size own time fs :
  IntCounter.INT_MIN ≤ nextFileId fs < IntCounter.INT_MAX →
  IntCounter.addFile path fileName ext size own time fs
  = addFile path fileName ext size own time fs.
Proof.
  intros Hn. unfold IntCounter.addFile, addFile.
  rewrite wrap_in_range; [done|]. unfold IntCounter.INT_MAX, IntCounter.INT_MIN in *. lia.
Qed.

Lemma IntCounter_assigned_ids_cons fs o ops :
  IntCounter.assigned_ids fs (o :: ops) =
    match o with
    | Add path fileName ext size own time =>
        if (IntCounter.addFile path fileName ext size own time fs).1
        then [fileId (newFileData path fileName ext size own time fs)] else []
    | Remove _ => []
    end ++ IntCounter.assigned_ids (IntCounter.step fs o) ops.
Proof. reflexivity. Qed.

Lemma IntCounter_assigned_ids_app fs ops1 ops2 :
  IntCounter.assigned_ids fs (ops1 ++ ops2) =
  IntCounter.assigned_ids fs ops1 ++ IntCounter.assigned_ids (IntCounter.run fs ops1) ops2.
Proof.
  revert fs. induction ops1 as [|o ops1 IH]; intros fs; [done|].
  rewrite <- app_comm_cons, !IntCounter_assigned_ids_cons, IH, <- app_assoc. done.
Qed.

(** While the counter stays below [INT_MAX], the store with the [int]
    counter is the store that counts on the integers. *)
Lemma IntCounter_run_exact fs ops :
  IntCounter.INT_MIN ≤ nextFileId fs →
  nextFileId fs + Z.of_nat (length (IntCounter.assigned_ids fs ops)) ≤ IntCounter.INT_MAX →
  IntCounter.run fs ops = run fs ops ∧ IntCounter.assigned_ids fs ops = assigned_ids fs ops.
Proof.
  revert fs. induction ops as [|o ops IH]; intros fs Hmin Hmax; [done|].
  rewrite IntCounter_assigned_ids_cons in Hmax |- *. rewrite assigned_ids_cons.
  rewrite length_app in Hmax. cbn [IntCounter.run run foldl].
  fold (IntCounter.run (IntCounter.step fs o) ops). fold (run (step fs o) ops).
  assert (Hstep : IntCounter.step fs o = step fs o ∧
                  nextFileId (step fs o) + Z.of_nat (length (IntCounter.assigned_ids (step fs o) ops))
                  ≤ IntCounter.INT_MAX ∧
                  IntCounter.INT_MIN ≤ nextFileId (step fs o) ∧
                  match o with
                  | Add path fileName ext size own time =>
                      (IntCounter.addFile path fileName ext size own time fs).1
                      = (addFile path fileName ext size own time fs).1
                  | Remove _ => True
                  end).
  { destruct o as [path fileName ext size own time|fullPath]; cbn [IntCounter.step step] in *.
    - destruct (accepted_dec path) as [Hacc|Hna].
      + assert (Hfst : (IntCounter.addFile path fileName ext size own time fs).1 = true)
          by (by rewrite IntCounter_addFile_accepted).
        rewrite Hfst in Hmax. cbn [length] in Hmax.
        assert (Hlt : IntCounter.INT_MIN ≤ nextFileId fs < IntCounter.INT_MAX) by lia.
        rewrite (IntCounter_addFile_exact _ _ _ _ _ _ _ Hlt) in *.
        rewrite nextFileId_addFile, Hfst. repeat split; lia.
      + rewrite IntCounter_addFile_rejected in * by done.
        rewrite addFile_rejected by done. cbn [fst snd length] in *. repeat split; lia.
    - rewrite nextFileId_removeFile. cbn [length] in Hmax. repeat split; lia. }
  destruct Hstep as (Hs & Hmax' & Hmin' & Hfst). rewrite Hs.
  destruct (IH (step fs o) Hmin' Hmax') as [Hrun Hids]. rewrite Hrun, Hids.
  split; [done|]. f_equal. destruct o; [by rewrite Hfst|done].
Qed.

Lemma IntCounter_run_app fs ops1 ops2 :
  IntCounter.run fs (ops1 ++ ops2) = IntCounter.run (IntCounter.run fs ops1) ops2.
Proof. apply foldl_app. Qed.

(** The identifiers up to and including [INT_MAX]: the add that hands out
    [INT_MAX] may be the last of the history. *)
Lemma IntCounter_assigned_ids_sorted fs ops :
  IntCounter.INT_MIN ≤ nextFileId fs →
  nextFileId fs + Z.of_nat (length (IntCounter.assigned_ids fs ops)) ≤ IntCounter.INT_MAX + 1 →
  strictly_increasing (IntCounter.assigned_ids fs ops) ∧
  ∀ id, id ∈ IntCounter.assigned_ids fs ops → nextFileId fs ≤ id ≤ IntCounter.INT_MAX.
Proof.
  intros Hmin. induction ops as [|o ops IH] using rev_ind; intros Hmax.
  { split; [constructor|]. by intros id ?%elem_of_nil. }
  rewrite IntCounter_assigned_ids_app in Hmax |- *.
  rewrite IntCounter_assigned_ids_cons in Hmax |- *.
  cbn [IntCounter.assigned_ids] in Hmax |- *. rewrite app_nil_r in Hmax |- *.
  assert (Hquiet : ∀ l, l = [] →
            nextFileId fs +
            Z.of_nat (length (IntCounter.assigned_ids fs ops ++ l)) ≤ IntCounter.INT_MAX + 1 →
            strictly_increasing (IntCounter.assigned_ids fs ops ++ l) ∧
            ∀ id, id ∈ IntCounter.assigned_ids fs ops ++ l →
                  nextFileId fs ≤ id ≤ IntCounter.INT_MAX).
  { intros l -> Hl. rewrite app_nil_r in Hl |- *. by apply IH. }
  destruct o as [path fileName ext size own time|fullPath]; [|by apply Hquiet].
  destruct (accepted_dec path) as [Hacc|Hna];
    [|apply Hquiet; [by rewrite IntCounter_addFile_rejected|done]].
  rewrite IntCounter_addFile_accepted in Hmax |- * by done. cbn [fst] in Hmax |- *.
  rewrite fileId_newFileData in Hmax |- *.
  rewrite length_app in Hmax. cbn [length] in Hmax.
  destruct (IntCounter_run_exact fs ops Hmin) as [Hrun Hids]; [lia|].
  rewrite Hids in Hmax. rewrite Hrun, Hids.
  pose proof (nextFileId_run fs ops) as Hnext.
  split.
  - apply StronglySorted_app_2.
    + intros x1 x2 Hx1 ->%list_elem_of_singleton. by apply assigned_ids_lt.
    + apply assigned_ids_sorted.
    + repeat constructor.
  - intros id [Hin| ->%list_elem_of_singleton]%elem_of_app.
    + pose proof (assigned_ids_ge _ _ _ Hin). pose proof (assigned_ids_lt _ _ _ Hin). lia.
    + lia.
Qed.

End IntCounterExact.

(** C8, with the bound it needs.  Along any history of one store, whatever
    state it starts in, as long as no identifier is handed out after
    [INT_MAX] (the counter the history starts with plus the number of
    identifiers handed out does not exceed [INT_MAX + 1]): the identifiers of
    the successful adds are strictly increasing, each is handed out once and
    none comes back, removes included; none is below the counter the history
    started with.  While the counter itself stays within [int] (the sum does
    not exceed [INT_MAX]), every identifier handed out is below the counter
    the history ends with, which has moved on by their number. *)
Theorem identifiers_strictly_increasing :
  ∀ (fs : FileSystemSimulator.t) (ops : list FileSystemSimulator.op),
    let ids := IntCounter.assigned_ids fs ops in
    IntCounter.INT_MIN ≤ FileSystemSimulator.nextFileId fs →
    FileSystemSimulator.nextFileId fs + Z.of_nat (length ids) ≤ IntCounter.INT_MAX + 1 →
    strictly_increasing ids ∧ NoDup ids ∧
    (∀ id, id ∈ ids → FileSystemSimulator.nextFileId fs <= id <= IntCounter.INT_MAX) ∧
    (FileSystemSimulator.nextFileId fs + Z.of_nat (length ids) ≤ IntCounter.INT_MAX →
     (∀ id, id ∈ ids → id < FileSystemSimulator.nextFileId (IntCounter.run fs ops)) ∧
     FileSystemSimulator.nextFileId (IntCounter.run fs ops)
     = FileSystemSimulator.nextFileId fs + Z.of_nat (length ids)).
Proof.
  intros fs ops ids Hmin Hmax.
  destruct (IntCounter_assigned_ids_sorted fs ops Hmin Hmax) as [Hs Hrange].
  split; [done|]. split; [by apply strictly_increasing_NoDup|]. split; [done|].
  intros Hint. destruct (IntCounter_run_exact fs ops Hmin Hint) as [Hrun Hids].
  unfold ids. rewrite Hrun, Hids. split.
  - intros id. apply assigned_ids_lt.
  - apply nextFileId_run.
Qed.

Lemma identifiers_strictly_increasing_witness :
  let ops := [FileSystemSimulator.Add "/home/u1" "a.jpg" ".jpg" 200000 "u1" "2024-01-15";
              FileSystemSimulator.Remove "/home/u1/a.jpg";
              FileSystemSimulator.Add "/home/u1" "a.jpg" ".jpg" 200000 "u1" "2024-01-15"] in
  let ids := IntCounter.assigned_ids FileSystemSimulator.init ops in
  (IntCounter.INT_MIN ≤ FileSystemSimulator.nextFileId FileSystemSimulator.init ∧
   FileSystemSimulator.nextFileId FileSystemSimulator.init + Z.of_nat (length ids)
   ≤ IntCounter.INT_MAX) ∧
  ids = [1; 2] ∧ strictly_increasing ids ∧
  FileSystemSimulator.nextFileId (IntCounter.run FileSystemSimulator.init ops) = 3.
Proof.
  assert (Hmin : IntCounter.INT_MIN ≤ FileSystemSimulator.nextFileId FileSystemSimulator.init)
    by (vm_compute; discriminate).
  assert (Hint : FileSystemSimulator.nextFileId FileSystemSimulator.init +
                 Z.of_nat (length (IntCounter.assigned_ids FileSystemSimulator.init
                   [FileSystemSimulator.Add "/home/u1" "a.jpg" ".jpg" 200000 "u1" "2024-01-15";
                    FileSystemSimulator.Remove "/home/u1/a.jpg";
                    FileSystemSimulator.Add "/home/u1" "a.jpg" ".jpg" 200000 "u1" "2024-01-15"]))
                 ≤ IntCounter.INT_MAX)
    by (vm_compute; discriminate).
  assert (Hmax : FileSystemSimulator.nextFileId FileSystemSimulator.init +
                 Z.of_nat (length (IntCounter.assigned_ids FileSystemSimulator.init
                   [FileSystemSimulator.Add "/home/u1" "a.jpg" ".jpg" 200000 "u1" "2024-01-15";
                    FileSystemSimulator.Remove "/home/u1/a.jpg";
                    FileSystemSimulator.Add "/home/u1" "a.jpg" ".jpg" 200000 "u1" "2024-01-15"]))
                 ≤ IntCounter.INT_MAX + 1)
    by (vm_compute; discriminate).
  split; [split; [exact Hmin|exact Hint]|]. split; [reflexivity|].
  destruct (identifiers_strictly_increasing FileSystemSimulator.init
              [FileSystemSimulator.Add "/home/u1" "a.jpg" ".jpg" 200000 "u1" "2024-01-15";
               FileSystemSimulator.Remove "/home/u1/a.jpg";
               FileSystemSimulator.Add "/home/u1" "a.jpg" ".jpg" 200000 "u1" "2024-01-15"]
              Hmin Hmax)
    as (Hs & _ & _ & Hcounter).
  destruct (Hcounter Hint) as [_ Hnext].
  split; [exact Hs|exact Hnext].
Defined.

Section IntCounterOverflow.

Import FileSystemSimulator.

(** Accepted adds, one after the other, below [INT_MAX]. *)
Lemma IntCounter_replicate_adds path fileName ext size own time (n : nat) : ∀ fs,
  accepted path →
  IntCounter.INT_MIN ≤ nextFileId fs →
  nextFileId fs + Z.of_nat n ≤ IntCounter.INT_MAX →
  let ops := replicate n (Add path fileName ext size own time) in
  nextFileId (IntCounter.run fs ops) = nextFileId fs + Z.of_nat n ∧
  length (IntCounter.assigned_ids fs ops) = n.
Proof.
  induction n as [|n IH]; intros fs Hacc Hmin Hmax; [cbn; split; [lia|done]|].
  cbv zeta. cbn [replicate]. rewrite IntCounter_assigned_ids_cons.
  cbn [IntCounter.run foldl IntCounter.step].
  fold (IntCounter.run (IntCounter.addFile path fileName ext size own time fs).2
          (replicate n (Add path fileName ext size own time))).
  rewrite IntCounter_addFile_exact by lia. rewrite addFile_accepted by done.
  cbn [fst snd]. cbv zeta.
  match goal with |- context [IntCounter.run ?fs1 _] => destruct (IH fs1 Hacc) as [Hn Hl] end.
  - cbn [nextFileId]. lia.
  - cbn [nextFileId]. lia.
  - cbv zeta in Hn, Hl. rewrite Hn, length_app, Hl. cbn [nextFileId length]. split; lia.
Qed.

End IntCounterOverflow.

(** C8, as stated, fails where the counter leaves the range of [int]: on a
    fresh store, after [INT_MAX - 1] successful adds the counter holds
    [INT_MAX]; the next add hands out [INT_MAX] and leaves [INT_MIN] in the
    counter, and the add after it hands out [INT_MIN].  The identifiers are
    no longer increasing. *)
Lemma identifiers_wrap_past_INT_MAX :
  let add := FileSystemSimulator.Add "/" "f" ".x" 1 "u" "t" in
  let ops := replicate (Z.to_nat (IntCounter.INT_MAX - 1)) add ++ [add; add] in
  let ids := IntCounter.assigned_ids FileSystemSimulator.init ops in
  (∃ earlier, ids = earlier ++ [IntCounter.INT_MAX; IntCounter.INT_MIN]) ∧
  ¬ strictly_increasing ids.
Proof.
  cbv zeta.
  set (add := FileSystemSimulator.Add "/" "f" ".x" 1 "u" "t").
  set (n := Z.to_nat (IntCounter.INT_MAX - 1)).
  assert (Hn : Z.of_nat n = IntCounter.INT_MAX - 1).
  { unfold n. apply Z2Nat.id. unfold IntCounter.INT_MAX. lia. }
  clearbody n.
  assert (Hacc : accepted "/") by (by eexists).
  destruct (IntCounter_replicate_adds "/" "f" ".x" 1 "u" "t" n FileSystemSimulator.init Hacc)
    as [Hnext _].
  { vm_compute. discriminate. }
  { change (FileSystemSimulator.nextFileId FileSystemSimulator.init) with 1. lia. }
  cbv zeta in Hnext. fold add in Hnext.
  change (FileSystemSimulator.nextFileId FileSystemSimulator.init) with 1 in Hnext.
  assert (Hids : IntCounter.assigned_ids FileSystemSimulator.init (replicate n add ++ [add; add])
                 = IntCounter.assigned_ids FileSystemSimulator.init (replicate n add)
                   ++ [IntCounter.INT_MAX; IntCounter.INT_MIN]).
  { rewrite IntCounter_assigned_ids_app. f_equal.
    set (fs := IntCounter.run FileSystemSimulator.init (replicate n add)) in *.
    assert (Hfs : FileSystemSimulator.nextFileId fs = IntCounter.INT_MAX) by lia.
    unfold add. rewrite !IntCounter_assigned_ids_cons. cbn [IntCounter.step].
    rewrite !IntCounter_addFile_accepted by done. cbn [fst snd]. cbv zeta.
    rewrite !fileId_newFileData. cbn [FileSystemSimulator.nextFileId].
    rewrite Hfs, wrap_past_INT_MAX. reflexivity. }
  rewrite Hids. split; [by eexists|].
  intros Hs. apply StronglySorted_app_1_r in Hs.
  apply StronglySorted_inv in Hs as [_ Hall].
  apply Forall_inv in Hall. vm_compute in Hall. discriminate.
Qed.

(** C7. An add fails exactly when the path is empty or does not begin with
    the delimiter, and then leaves the store as it was; [getOrCreatePath]
    returns no node for such a path.  For an accepted path the walk visits
    the segments of the path, empty pieces skipped, and the path ["/"] yields
    the root itself. *)
Theorem add_rejects_exactly_invalid_paths :
  ∀ (path fileName ext : string) (size : Z) (own time : string)
    (fs : FileSystemSimulator.t),
    let invalid := path = "" ∨ String.get 0 path ≠ Some delimiter in
    let result := FileSystemSimulator.addFile path fileName ext size own time fs in
    (result.1 = false ↔ invalid) ∧
    (result.1 = false → result.2 = fs) ∧
    (∀ k root, invalid → getOrCreatePath path k root = None) ∧
    (∀ k root, ¬ invalid →
       getOrCreatePath path k root = Some (create_along (segments path) k root)) ∧
    (∀ k root, getOrCreatePath "/" k root = Some (k root)).
Proof.
  intros path fileName ext size own time fs invalid result.
  assert (Hinv : invalid ↔ ¬ accepted path).
  { unfold invalid. rewrite accepted_iff.
    destruct (decide (path = "")) as [->|Hne]; [split; [intros _ [? _]; done|by left]|].
    split; [intros [?|?] [? ?]; done|]. intros Hn. right. intros Hget. by apply Hn. }
  subst result. destruct (accepted_dec path) as [Hacc|Hna].
  - rewrite addFile_accepted by done. cbn [fst snd].
    split; [split; [done|by intros ?%Hinv]|]. split; [done|]. split.
    + by intros k root ?%Hinv.
    + split; [|done]. intros k root _.
      by rewrite getOrCreatePath_accepted, walk_parts_segments.
  - rewrite addFile_rejected by done. cbn [fst snd].
    split; [split; [by intros _; apply Hinv|done]|]. split; [done|]. split.
    + intros k root _. by apply getOrCreatePath_rejected.
    + split; [|done]. intros k root Hn. destruct Hn. by apply Hinv.
Qed.

Lemma add_rejects_exactly_invalid_paths_witness :
  let result := FileSystemSimulator.addFile "home/u1" "a.jpg" ".jpg" 200000 "u1" "2024-01-15"
                  FileSystemSimulator.init in
  result.1 = false ∧ result.2 = FileSystemSimulator.init ∧
  ∀ k root, getOrCreatePath "/home//u1/" k root
            = Some (create_along ["home"; "u1"] k root).
Proof.
  assert (H : (FileSystemSimulator.addFile "home/u1" "a.jpg" ".jpg" 200000 "u1" "2024-01-15"
                 FileSystemSimulator.init).1 = false) by reflexivity.
  split; [exact H|].
  destruct (add_rejects_exactly_invalid_paths "home/u1" "a.jpg" ".jpg" 200000 "u1" "2024-01-15"
              FileSystemSimulator.init) as (_ & Hsame & _).
  split; [exact (Hsame H)|].
  destruct (add_rejects_exactly_invalid_paths "/home//u1/" "a.jpg" ".jpg" 200000 "u1" "2024-01-15"
              FileSystemSimulator.init) as (_ & _ & _ & Hwalk & _).
  intros k root. apply (Hwalk k root).
  intros [Hempty|Hget]; [discriminate|]. apply Hget. reflexivity.
Defined.

Section Registration.

Import InvertedIndex.



End Registration.



(** C5, at the failing input.  With one file of size 5 in the store, the
    range query with bounds 10 and 1 starts its scan at [end()]
    ([lower_bound(10)]) while [upper_bound(1)] is the entry of key 5: the
    loop condition [it != upper] holds and the body dereferences [end()]. *)
Theorem size_range_scan_walks_past_end :
  let fs := FileSystemSimulator.run FileSystemSimulator.init
              [FileSystemSimulator.Add "/" "a" ".x" 5 "u" "t"] in
  InvertedIndex.map_lower_bound 10 (InvertedIndex.sizeIndex (FileSystemSimulator.invertedIndex fs))
  = 1%nat ∧
  InvertedIndex.map_upper_bound 1 (InvertedIndex.sizeIndex (FileSystemSimulator.invertedIndex fs))
  = 0%nat ∧
  InvertedIndex.queryBySizeRange 10 1 (FileSystemSimulator.invertedIndex fs) = None ∧
  FileSystemSimulator.queryBySizeRangeIndexed 10 1 fs = None.
Proof. vm_compute. done. Qed.

Section FullPath.

Import FileSystemSimulator.
Implicit Types (s part path fileName : string).

Lemma getline_parts_app part s1 s2 :
  List.filter nonempty_part (getline_parts part (s1 +:+ String delimiter s2)) =
  List.filter nonempty_part (getline_parts part s1)
  ++ List.filter nonempty_part (getline_parts "" s2).
Proof.
  revert part. induction s1 as [|c s1 IH]; intros part.
  - rewrite append_nil_l, getline_parts_cons, Ascii.eqb_refl. simpl. by destruct part.
  - rewrite append_cons, !getline_parts_cons.
    destruct (Ascii.eqb c delimiter); [|apply IH].
    cbn [List.filter]. rewrite IH. by destruct (negb (part_empty part)).
Qed.

Lemma getline_parts_no_delimiter part s :
  has_delimiter s = false →
  getline_parts part s = if part_empty (part +:+ s) then [] else [part +:+ s].
Proof.
  revert part. induction s as [|c s IH]; intros part Hs.
  - rewrite append_nil_r. by destruct part.
  - simpl in Hs. apply orb_false_iff in Hs as [Hc Hs].
    rewrite getline_parts_cons, Hc, (IH _ Hs). by rewrite append_snoc.
Qed.

Lemma getline_parts_segment_name fileName :
  segment_name fileName →
  List.filter nonempty_part (getline_parts "" fileName) = [fileName].
Proof.
  intros [Hne Hs]. rewrite getline_parts_no_delimiter by done. rewrite append_nil_l.
  destruct fileName; [done|]. reflexivity.
Qed.

Lemma walk_parts_app path s :
  accepted path →
  walk_parts (path +:+ String delimiter s)
  = walk_parts path ++ List.filter nonempty_part (getline_parts "" s).
Proof.
  intros [rest ->]. unfold walk_parts. rewrite append_cons. simpl substr1.
  apply getline_parts_app.
Qed.

Lemma back_snoc s c : back s = Some c → ∃ s', s = s' +:+ String c "".
Proof.
  induction s as [|c' s IH]; [done|]. simpl.
  destruct s as [|c'' s].
  - intros [= ->]. by exists "".
  - intros Hb. destruct (IH Hb) as [s' Hs']. exists (String c' s').
    by rewrite append_cons, <- Hs'.
Qed.

(** The full path [addFile] builds leads to the directory of [path], then to
    [fileName]. *)
Lemma walk_parts_fullPath path fileName ext size own time fs :
  accepted path → segment_name fileName →
  walk_parts (fullPath (newFileData path fileName ext size own time fs))
  = walk_parts path ++ [fileName].
Proof.
  intros Hacc Hname. cbn [newFileData fullPath].
  rewrite <- (getline_parts_segment_name fileName Hname).
  case_bool_decide as Hback.
  - rewrite append_nil_l. apply back_snoc in Hback as [s' ->].
    rewrite append_assoc, append_cons, append_nil_l.
    destruct s' as [|c s'].
    + by rewrite append_nil_l.
    + assert (Hacc' : accepted (String c s')).
      { destruct Hacc as [rest Hrest]. rewrite append_cons in Hrest.
        injection Hrest as -> _. by eexists. }
      rewrite !walk_parts_app by done. simpl. by rewrite app_nil_r.
  - rewrite append_cons, append_nil_l. by apply walk_parts_app.
Qed.

Lemma accepted_fullPath path fileName ext size own time fs :
  accepted path → accepted (fullPath (newFileData path fileName ext size own time fs)).
Proof. intros [rest ->]. cbn [newFileData fullPath]. rewrite append_cons. by eexists. Qed.

Lemma node_at_app keys1 keys2 current :
  node_at (keys1 ++ keys2) current
  = match node_at keys1 current with
    | Some node => node_at keys2 node
    | None => None
    end.
Proof.
  revert current. induction keys1 as [|key keys1 IH]; intros current; [done|].
  simpl. destruct (Children.find key (children current)); [apply IH|done].
Qed.


(** After an add, the full path of the new record resolves to its node. *)
Lemma findFileNode_after_add path fileName ext size own time fs :
  accepted path → segment_name fileName →
  let file := newFileData path fileName ext size own time fs in
  findFileNode (fullPath file) (root (addFile path fileName ext size own time fs).2)
  = Some (mkNode fileName false (Some file) []).
Proof.
  intros Hacc Hname file. rewrite addFile_accepted by done. cbn [snd root].
  rewrite findFileNode_accepted by (by apply accepted_fullPath).
  unfold file. rewrite walk_parts_fullPath by done.
  rewrite node_at_app, node_at_create_along. unfold attach. simpl.
  by rewrite find_set_eq.
Qed.

End FullPath.

Section RoundTrip.

Import FileSystemSimulator.

Lemma addFile_true_accepted path fileName ext size own time fs :
  (addFile path fileName ext size own time fs).1 = true → accepted path.
Proof.
  intros Hok. destruct (accepted_dec path) as [Hacc|Hna]; [done|].
  by rewrite addFile_rejected in Hok.
Qed.

Lemma lookup_after_add path fileName ext size own time fs :
  accepted path →
  let file := newFileData path fileName ext size own time fs in
  fileMetadataMap (addFile path fileName ext size own time fs).2 !! fileId file = Some file.
Proof. intros Hacc file. rewrite addFile_accepted by done. apply lookup_insert_eq. Qed.

(** Removing the file at the full path an add built: the call succeeds and
    erases the record of that add from the flat table. *)
Lemma removeFile_after_add path fileName ext size own time fs :
  accepted path → segment_name fileName →
  let file := newFileData path fileName ext size own time fs in
  let added := (addFile path fileName ext size own time fs).2 in
  (removeFile (fullPath file) added).1 = true ∧
  fileMetadataMap (removeFile (fullPath file) added).2
  = delete (fileId file) (fileMetadataMap added).
Proof.
  intros Hacc Hname file added.
  pose proof (findFileNode_after_add path fileName ext size own time fs Hacc Hname) as Hfind.
  cbv zeta in Hfind. fold file added in Hfind.
  rewrite (removeFile_file _ _ _ Hfind eq_refl). split; reflexivity.
Qed.

Lemma not_in_resolve_deleted fs ids id :
  store_inv fs → fileMetadataMap fs !! id = None → id ∉ (fileId <$> resolve ids fs).
Proof.
  intros Hinv Hnone (r & -> & Hr)%list_elem_of_fmap.
  apply elem_of_resolve in Hr as [_ Hr]; [|done]. congruence.
Qed.

End RoundTrip.

(** C3, as amended.  In every store a history leads to, after a successful
    add the indexed queries by the extension, by the owner and by a size
    range around the size of the file return the new record; if moreover the
    file name is one path segment (not empty, no ['/']), removing the full
    path of the record succeeds, and the same queries then return no record
    with its id. *)
Theorem add_query_remove_roundtrip :
  ∀ (ops : list FileSystemSimulator.op)
    (path fileName ext : string) (size : Z) (own time : string),
    let fs := FileSystemSimulator.run FileSystemSimulator.init ops in
    let file := FileSystemSimulator.newFileData path fileName ext size own time fs in
    let added := FileSystemSimulator.addFile path fileName ext size own time fs in
    let removed := FileSystemSimulator.removeFile (fullPath file) added.2 in
    added.1 = true →
    (file ∈ FileSystemSimulator.queryByExtensionIndexed ext added.2 ∧
     file ∈ FileSystemSimulator.queryByOwnerIndexed own added.2 ∧
     (∀ lo hi, lo <= size <= hi →
        ∃ rs, FileSystemSimulator.queryBySizeRangeIndexed lo hi added.2 = Some rs ∧
              file ∈ rs)) ∧
    (segment_name fileName →
     removed.1 = true ∧
     (fileId file ∉ (fileId <$> FileSystemSimulator.queryByExtensionIndexed ext removed.2)) ∧
     (fileId file ∉ (fileId <$> FileSystemSimulator.queryByOwnerIndexed own removed.2)) ∧
     (∀ lo hi rs, FileSystemSimulator.queryBySizeRangeIndexed lo hi removed.2 = Some rs →
                  fileId file ∉ (fileId <$> rs))).
Proof.
  intros ops path fileName ext size own time fs file added removed Hok.
  pose proof (addFile_true_accepted _ _ _ _ _ _ _ Hok) as Hacc.
  pose proof (store_inv_run ops) as Hinv. fold fs in Hinv.
  assert (Hinv1 : store_inv added.2) by (by apply store_inv_addFile).
  assert (Hinv2 : store_inv removed.2) by (by apply store_inv_removeFile).
  pose proof (lookup_after_add path fileName ext size own time fs Hacc) as Hlook.
  fold file added in Hlook.
  split.
  { split; [by apply queryByExtensionIndexed_spec|].
    split; [by apply queryByOwnerIndexed_spec|].
    intros lo hi Hsz.
    destruct (queryBySizeRangeIndexed_spec added.2 lo hi Hinv1 ltac:(lia))
      as (rs & Hrs & _ & Hmem).
    exists rs. split; [done|]. by apply Hmem. }
  intros Hname.
  destruct (removeFile_after_add path fileName ext size own time fs Hacc Hname)
    as [Hrem Htab].
  fold file added removed in Hrem, Htab.
  assert (Hgone : FileSystemSimulator.fileMetadataMap removed.2 !! fileId file = None)
    by (rewrite Htab; apply lookup_delete_eq).
  split; [done|].
  split; [by apply not_in_resolve_deleted|].
  split; [by apply not_in_resolve_deleted|].
  intros lo hi rs Hrs. unfold FileSystemSimulator.queryBySizeRangeIndexed in Hrs.
  destruct (InvertedIndex.queryBySizeRange lo hi _) as [ids|]; [|done].
  injection Hrs as <-. by apply not_in_resolve_deleted.
Qed.

Lemma add_query_remove_roundtrip_witness :
  let fs := FileSystemSimulator.run FileSystemSimulator.init [] in
  let file := FileSystemSimulator.newFileData "/home/u1" "a.jpg" ".jpg" 200000 "u1" "2024-01-15" fs in
  let added := FileSystemSimulator.addFile "/home/u1" "a.jpg" ".jpg" 200000 "u1" "2024-01-15" fs in
  let removed := FileSystemSimulator.removeFile (fullPath file) added.2 in
  (added.1 = true ∧ segment_name "a.jpg") ∧
  file ∈ FileSystemSimulator.queryByExtensionIndexed ".jpg" added.2 ∧
  removed.1 = true ∧
  fileId file ∉ (fileId <$> FileSystemSimulator.queryByExtensionIndexed ".jpg" removed.2).
Proof.
  assert (Hok : (FileSystemSimulator.addFile "/home/u1" "a.jpg" ".jpg" 200000 "u1" "2024-01-15"
                   (FileSystemSimulator.run FileSystemSimulator.init [])).1 = true)
    by reflexivity.
  assert (Hname : segment_name "a.jpg") by (split; [discriminate|reflexivity]).
  split; [split; [exact Hok|exact Hname]|].
  pose proof (add_query_remove_roundtrip [] "/home/u1" "a.jpg" ".jpg" 200000 "u1" "2024-01-15"
                Hok) as [(H1 & _) Hrem].
  destruct (Hrem Hname) as (H4 & H5 & _).
  split; [exact H1|]. split; [exact H4|exact H5].
Defined.

(** C3, as stated, fails: a file added under a name that is not one path
    segment (here ["a/b.jpg"]) is returned by the indexed query, but removing
    its full path finds no node, returns [false], and the query still returns
    its id. *)
Lemma roundtrip_fails_for_name_with_delimiter :
  let fs := FileSystemSimulator.init in
  let file := FileSystemSimulator.newFileData "/" "a/b.jpg" ".jpg" 1 "u" "t" fs in
  let added := FileSystemSimulator.addFile "/" "a/b.jpg" ".jpg" 1 "u" "t" fs in
  let removed := FileSystemSimulator.removeFile (fullPath file) added.2 in
  added.1 = true ∧
  fileId file ∈ (fileId <$> FileSystemSimulator.queryByExtensionIndexed ".jpg" added.2) ∧
  removed.1 = false ∧
  fileId file ∈ (fileId <$> FileSystemSimulator.queryByExtensionIndexed ".jpg" removed.2).
Proof.
  split; [reflexivity|]. split; [vm_compute; left|]. split; [reflexivity|].
  vm_compute. left.
Qed.

Section Removal.

Import FileSystemSimulator.



End Removal.




Section Overwrite.

Import FileSystemSimulator.


Lemma getTotalFiles_addFile path fileName ext size own time fs :
  store_inv fs → accepted path →
  getTotalFiles (addFile path fileName ext size own time fs).2 = S (getTotalFiles fs).
Proof.
  intros Hinv Hacc. rewrite addFile_accepted by done. unfold getTotalFiles. simpl.
  apply map_size_insert_None. by apply store_inv_fresh.
Qed.

End Overwrite.



Section Baseline.

Import FileSystemSimulator.

Lemma tree_complete_init : tree_complete init.
Proof. intros id r Hr. simpl in Hr. by rewrite lookup_empty in Hr. Qed.

Lemma tree_complete_addFile path fileName ext size own time fs :
  store_inv fs → tree_complete fs → (accepted path → add_keeps path fileName fs) →
  tree_complete (addFile path fileName ext size own time fs).2.
Proof.
  intros Hinv Hcomp Hkeeps. destruct (accepted_dec path) as [Hacc|Hna];
    [|by rewrite addFile_rejected].
  rewrite addFile_accepted by done. cbn [snd].
  set (file := newFileData path fileName ext size own time fs).
  destruct (attach_records (walk_parts path) fileName file (root fs) (inv_wf _ Hinv))
    as (kept & Hold & Hnew).
  rewrite (Hkeeps Hacc), app_nil_l in Hold.
  intros id r. cbn [fileMetadataMap root]. rewrite Hnew, <- Hold.
  destruct (decide (id = fileId file)) as [->|Hne].
  - rewrite lookup_insert_eq. intros [= <-]. left.
  - rewrite lookup_insert_ne by done. intros Hr. right. by eapply Hcomp.
Qed.

Lemma tree_complete_removeFile fullPath fs :
  store_inv fs → tree_complete fs → remove_keeps fullPath fs →
  tree_complete (removeFile fullPath fs).2.
Proof.
  intros Hinv Hcomp Hkeeps. unfold remove_keeps in Hkeeps.
  destruct (findFileNode fullPath (root fs)) as [f|] eqn:Hfind;
    [|by rewrite removeFile_not_found].
  destruct (isDirectory f) eqn:Hf; [by erewrite removeFile_directory|].
  erewrite removeFile_file by done. cbn [snd].
  pose proof (findFileNode_Some _ _ _ Hfind) as [Hacc Hat].
  pose proof (found_file_not_root _ _ _ (inv_root _ Hinv) Hf Hat) as Hne.
  pose proof (detach_records _ _ _ (inv_wf _ Hinv) Hat Hne) as Hrecs.
  rewrite (traverseAndFilter_unfold f), (Hkeeps eq_refl), app_nil_r in Hrecs.
  destruct (fileData f) as [file|] eqn:Hdata; cbv zeta.
  - rewrite (own_record_file f file) in Hrecs by done.
    intros id r. cbn [fileMetadataMap root]. intros [Hid Hr]%lookup_delete_Some.
    pose proof (Hcomp id r Hr) as Hin. rewrite Hrecs in Hin.
    apply elem_of_cons in Hin as [->|Hin]; [|done].
    apply (inv_ids _ Hinv) in Hr as [? _]. congruence.
  - intros id r. cbn [fileMetadataMap root]. intros Hr.
    pose proof (Hcomp id r Hr) as Hin. rewrite Hrecs in Hin.
    unfold own_record in Hin. rewrite Hf, Hdata in Hin. done.
Qed.

Lemma tree_complete_run_from fs ops :
  store_inv fs → tree_complete fs → history_keeps fs ops → tree_complete (run fs ops).
Proof.
  revert fs. induction ops as [|o ops IH]; intros fs Hinv Hcomp Hkeeps; [done|].
  destruct Hkeeps as [Hk Hkeeps]. cbn [run foldl]. apply IH; [by apply store_inv_step| |done].
  destruct o; cbn [step]; [by apply tree_complete_addFile|by apply tree_complete_removeFile].
Qed.

Lemma NoDup_fmap_filter {A B} (f : A → B) (P : A → bool) (l : list A) :
  NoDup (f <$> l) → NoDup (f <$> List.filter P l).
Proof.
  induction l as [|x l IH]; [done|]. rewrite fmap_cons. intros [Hx Hnd]%NoDup_cons.
  cbn [List.filter]. destruct (P x); [|by apply IH].
  rewrite fmap_cons. apply NoDup_cons. split; [|by apply IH].
  intros (y & Hy & Hin)%list_elem_of_fmap. apply Hx.
  apply list_elem_of_In, filter_In in Hin as [Hin _]. apply list_elem_of_In in Hin.
  rewrite Hy. by apply list_elem_of_fmap_2.
Qed.

(** In a consistent store whose flat table holds no record the traversal
    misses, the two extension queries return the same records. *)
Lemma queries_agree fs ext :
  store_inv fs → tree_complete fs →
  (∀ r, r ∈ queryByExtensionTraditional ext fs ↔ r ∈ queryByExtensionIndexed ext fs) ∧
  fileId <$> queryByExtensionTraditional ext fs ≡ₚ fileId <$> queryByExtensionIndexed ext fs.
Proof.
  intros Hinv Hcomp.
  assert (Hmem : ∀ r, r ∈ queryByExtensionTraditional ext fs ↔
                      r ∈ queryByExtensionIndexed ext fs).
  { intros r. rewrite queryByExtensionIndexed_spec by done.
    unfold queryByExtensionTraditional. rewrite list_elem_of_In, filter_In, <- list_elem_of_In.
    rewrite String.eqb_eq. split.
    - intros [Hin He]. split; [by apply (inv_tree_table _ Hinv)|done].
    - intros [Hr He]. split; [by eapply Hcomp|done]. }
  split; [done|]. apply NoDup_Permutation.
  - apply NoDup_fmap_filter, Hinv.
  - apply strictly_increasing_NoDup. by apply queryByExtensionIndexed_ids_sorted.
  - intros id. rewrite !list_elem_of_fmap. by setoid_rewrite Hmem.
Qed.

End Baseline.

(** Baseline equivalence for the histories that keep every record reachable:
    when no add replaces a child under which records are stored and no remove
    detaches a file node under which records are stored, the traversal query
    and the indexed query return the same records for every extension, hence
    the same ids. *)
Theorem baseline_equals_indexed_when_nothing_is_detached :
  ∀ (ops : list FileSystemSimulator.op) (ext : string),
    history_keeps FileSystemSimulator.init ops →
    let fs := FileSystemSimulator.run FileSystemSimulator.init ops in
    (∀ r, r ∈ FileSystemSimulator.queryByExtensionTraditional ext fs ↔
          r ∈ FileSystemSimulator.queryByExtensionIndexed ext fs) ∧
    fileId <$> FileSystemSimulator.queryByExtensionTraditional ext fs
    ≡ₚ fileId <$> FileSystemSimulator.queryByExtensionIndexed ext fs.
Proof.
  intros ops ext Hkeeps fs. apply queries_agree; [apply store_inv_run|].
  apply tree_complete_run_from; [apply store_inv_init|apply tree_complete_init|done].
Qed.

(** The scenario of the specification is such a history. *)
Example baseline_equals_indexed_scenario :
  let ops := [FileSystemSimulator.Add "/home/u1" "a.jpg" ".jpg" 200000 "u1" "2024-01-15";
              FileSystemSimulator.Add "/home/u1" "b.png" ".png" 500000 "u1" "2024-01-16";
              FileSystemSimulator.Remove "/home/u1/a.jpg"] in
  let fs := FileSystemSimulator.run FileSystemSimulator.init ops in
  history_keeps FileSystemSimulator.init ops ∧
  fileId <$> FileSystemSimulator.queryByExtensionTraditional ".png" fs
  ≡ₚ fileId <$> FileSystemSimulator.queryByExtensionIndexed ".png" fs.
Proof.
  assert (H : history_keeps FileSystemSimulator.init
                [FileSystemSimulator.Add "/home/u1" "a.jpg" ".jpg" 200000 "u1" "2024-01-15";
                 FileSystemSimulator.Add "/home/u1" "b.png" ".png" 500000 "u1" "2024-01-16";
                 FileSystemSimulator.Remove "/home/u1/a.jpg"]).
  { repeat split; intros; reflexivity. }
  split; [exact H|].
  apply (baseline_equals_indexed_when_nothing_is_detached _ ".png" H).
Qed.

(** C1, at the failing input.  After two adds of the same name in the same
    directory the traversal finds the second file only, while the indexed
    query returns both ids: the first record was never deregistered. *)
Theorem baseline_differs_after_overwrite :
  let fs := FileSystemSimulator.run FileSystemSimulator.init
              [FileSystemSimulator.Add "/" "a" ".x" 1 "u" "t";
               FileSystemSimulator.Add "/" "a" ".x" 2 "u" "t"] in
  fileId <$> FileSystemSimulator.queryByExtensionTraditional ".x" fs = [2] ∧
  fileId <$> FileSystemSimulator.queryByExtensionIndexed ".x" fs = [1; 2] ∧
  ¬ (∀ id, id ∈ (fileId <$> FileSystemSimulator.queryByExtensionTraditional ".x" fs) ↔
           id ∈ (fileId <$> FileSystemSimulator.queryByExtensionIndexed ".x" fs)).
Proof.
  assert (H1 : fileId <$> FileSystemSimulator.queryByExtensionTraditional ".x"
                 (FileSystemSimulator.run FileSystemSimulator.init
                    [FileSystemSimulator.Add "/" "a" ".x" 1 "u" "t";
                     FileSystemSimulator.Add "/" "a" ".x" 2 "u" "t"]) = [2])
    by (vm_compute; reflexivity).
  assert (H2 : fileId <$> FileSystemSimulator.queryByExtensionIndexed ".x"
                 (FileSystemSimulator.run FileSystemSimulator.init
                    [FileSystemSimulator.Add "/" "a" ".x" 1 "u" "t";
                     FileSystemSimulator.Add "/" "a" ".x" 2 "u" "t"]) = [1; 2])
    by (vm_compute; reflexivity).
  cbv zeta. split; [exact H1|]. split; [exact H2|].
  rewrite H1, H2. intros H. specialize (H 1).
  assert (Hin : 1 ∈ [1; 2]) by left.
  apply H in Hin. apply list_elem_of_singleton in Hin. discriminate.
Qed.

(** * Further properties of the code *)

Section IndexSoundness.




End IndexSoundness.



Section ExactQueries.

Import FileSystemSimulator.



End ExactQueries.



Section Counting.

Import FileSystemSimulator.


(** The keys of the table are no more than any list that holds them all. *)
Lemma size_le_covering (m : gmap Z FileMetadata) (ids : list Z) :
  (∀ id, is_Some (m !! id) → id ∈ ids) → (size m <= length ids)%nat.
Proof.
  intros Hsub. rewrite <- size_dom. unfold size, set_size. simpl.
  apply submseteq_length, NoDup_submseteq; [apply NoDup_elements|].
  intros id Hid. apply Hsub, elem_of_dom. by apply elem_of_elements.
Qed.

Lemma removeFile_table_subset fullPath fs id r :
  fileMetadataMap (removeFile fullPath fs).2 !! id = Some r →
  fileMetadataMap fs !! id = Some r.
Proof.
  unfold removeFile. destruct (findFileNode fullPath (root fs)) as [f|]; [|done].
  destruct (isDirectory f); [done|]. destruct (fileData f) as [file|]; [|done].
  cbn [snd fileMetadataMap]. by intros [_ ?]%lookup_delete_Some.
Qed.

Lemma addFile_table path fileName ext size own time fs id r :
  fileMetadataMap (addFile path fileName ext size own time fs).2 !! id = Some r →
  ((addFile path fileName ext size own time fs).1 = true ∧ id = nextFileId fs) ∨
  fileMetadataMap fs !! id = Some r.
Proof.
  destruct (accepted_dec path) as [Hacc|Hna].
  - rewrite addFile_accepted by done. cbn [fst snd fileMetadataMap]. cbv zeta.
    rewrite fileId_newFileData. intros [[<- _]|[_ ?]]%lookup_insert_Some; auto.
  - rewrite addFile_rejected by done. auto.
Qed.

(** Every key of the table was there at the start or was handed out on the
    way. *)
Lemma table_keys_assigned fs ops id r :
  fileMetadataMap (run fs ops) !! id = Some r →
  is_Some (fileMetadataMap fs !! id) ∨ id ∈ assigned_ids fs ops.
Proof.
  revert fs. induction ops as [|o ops IH]; intros fs Hr; [left; by eexists|].
  cbn [run foldl] in Hr. fold (run (step fs o) ops) in Hr.
  rewrite assigned_ids_cons, elem_of_app.
  destruct (IH _ Hr) as [[r' Hr']|Hin]; [|by right; right].
  destruct o as [path fileName ext size own time|fullPath]; cbn [step] in Hr'.
  - apply addFile_table in Hr' as [[Hok ->]|Hr']; [|left; by eexists].
    right. left. rewrite Hok. left.
  - apply removeFile_table_subset in Hr'. left. by eexists.
Qed.

End Counting.



Lemma counter_and_table_integers (ops : list FileSystemSimulator.op) :
  let fs := FileSystemSimulator.run FileSystemSimulator.init ops in
  let ids := FileSystemSimulator.assigned_ids FileSystemSimulator.init ops in
  FileSystemSimulator.nextFileId fs = 1 + Z.of_nat (length ids) ∧
  (∀ id r, FileSystemSimulator.fileMetadataMap fs !! id = Some r →
           fileId r = id ∧ id ∈ ids ∧ 1 <= id < FileSystemSimulator.nextFileId fs) ∧
  (FileSystemSimulator.getTotalFiles fs <= length ids)%nat.
Proof.
  intros fs ids. pose proof (store_inv_run ops) as Hinv. fold fs in Hinv.
  assert (Hkeys : ∀ id r, FileSystemSimulator.fileMetadataMap fs !! id = Some r → id ∈ ids).
  { intros id r Hr. apply table_keys_assigned in Hr as [[r' Hr']|Hin]; [|done].
    unfold FileSystemSimulator.init in Hr'. simpl in Hr'. by rewrite lookup_empty in Hr'. }
  split; [apply (nextFileId_run FileSystemSimulator.init ops)|]. split.
  - intros id r Hr. destruct (inv_ids _ Hinv _ _ Hr) as [Heq Hlt].
    pose proof (Hkeys _ _ Hr) as Hin.
    split; [done|]. split; [done|]. split; [|done].
    apply (assigned_ids_ge FileSystemSimulator.init ops id Hin).
  - apply size_le_covering. intros id [r Hr]. by eapply Hkeys.
Qed.

(** X4. The counter and the table, the counter held in an [int].  After a
    history from the fresh store that hands out at most [INT_MAX - 1]
    identifiers, [nextFileId] is one more than the number of ids handed out;
    every entry of the flat table is stored under the id its record carries,
    and that id is one of those handed out by a successful add of the
    history, so it lies between 1 and [nextFileId]; and [getTotalFiles] is
    at most the number of successful adds. *)
Theorem counter_and_table :
  ∀ ops : list FileSystemSimulator.op,
    let fs := IntCounter.run FileSystemSimulator.init ops in
    let ids := IntCounter.assigned_ids FileSystemSimulator.init ops in
    1 + Z.of_nat (length ids) ≤ IntCounter.INT_MAX →
    FileSystemSimulator.nextFileId fs = 1 + Z.of_nat (length ids) ∧
    (∀ id r, FileSystemSimulator.fileMetadataMap fs !! id = Some r →
             fileId r = id ∧ id ∈ ids ∧ 1 <= id < FileSystemSimulator.nextFileId fs) ∧
    (FileSystemSimulator.getTotalFiles fs <= length ids)%nat.
Proof.
  intros ops fs ids Hmax.
  destruct (IntCounter_run_exact FileSystemSimulator.init ops) as [Hrun Hids].
  - vm_compute. discriminate.
  - exact Hmax.
  - unfold fs, ids. rewrite Hrun, Hids. apply counter_and_table_integers.
Qed.

Lemma counter_and_table_witness :
  let ops := [FileSystemSimulator.Add "/home/u1" "a.jpg" ".jpg" 200000 "u1" "2024-01-15";
              FileSystemSimulator.Remove "/home/u1/a.jpg";
              FileSystemSimulator.Add "/home/u1" "b.png" ".png" 500000 "u1" "2024-01-16"] in
  let fs := IntCounter.run FileSystemSimulator.init ops in
  let r := mkFileMetadata 2 "b.png" ".png" 500000 "u1" "2024-01-16" "/home/u1/b.png" in
  1 + Z.of_nat (length (IntCounter.assigned_ids FileSystemSimulator.init ops))
  ≤ IntCounter.INT_MAX ∧
  FileSystemSimulator.fileMetadataMap fs !! 2 = Some r ∧
  2 ∈ IntCounter.assigned_ids FileSystemSimulator.init ops ∧
  FileSystemSimulator.nextFileId fs = 3.
Proof.
  assert (Hmax : 1 + Z.of_nat (length (IntCounter.assigned_ids FileSystemSimulator.init
                   [FileSystemSimulator.Add "/home/u1" "a.jpg" ".jpg" 200000 "u1" "2024-01-15";
                    FileSystemSimulator.Remove "/home/u1/a.jpg";
                    FileSystemSimulator.Add "/home/u1" "b.png" ".png" 500000 "u1" "2024-01-16"]))
                 ≤ IntCounter.INT_MAX)
    by (vm_compute; discriminate).
  assert (H : FileSystemSimulator.fileMetadataMap
                (IntCounter.run FileSystemSimulator.init
                   [FileSystemSimulator.Add "/home/u1" "a.jpg" ".jpg" 200000 "u1" "2024-01-15";
                    FileSystemSimulator.Remove "/home/u1/a.jpg";
                    FileSystemSimulator.Add "/home/u1" "b.png" ".png" 500000 "u1" "2024-01-16"])
              !! 2
              = Some (mkFileMetadata 2 "b.png" ".png" 500000 "u1" "2024-01-16" "/home/u1/b.png"))
    by (vm_compute; reflexivity).
  split; [exact Hmax|]. split; [exact H|].
  destruct (counter_and_table
              [FileSystemSimulator.Add "/home/u1" "a.jpg" ".jpg" 200000 "u1" "2024-01-15";
               FileSystemSimulator.Remove "/home/u1/a.jpg";
               FileSystemSimulator.Add "/home/u1" "b.png" ".png" 500000 "u1" "2024-01-16"] Hmax)
    as (Hnext & Htab & _).
  destruct (Htab _ _ H) as (_ & Hin & _). split; [exact Hin|exact Hnext].
Defined.

Section Frame.

Import FileSystemSimulator.




End Frame.




Section ReversedBounds.

Import InvertedIndex.
Implicit Types (m rest : list (Z * list Z)) (k lo hi : Z).





End ReversedBounds.



Section PostingListRoundTrip.

Implicit Types (l : list Z) (x y : Z).

(** A strictly increasing list is determined by its elements. *)
Lemma strictly_increasing_ext l1 l2 :
  strictly_increasing l1 → strictly_increasing l2 →
  (∀ x, x ∈ l1 ↔ x ∈ l2) → l1 = l2.
Proof.
  revert l2. induction l1 as [|a l1 IH]; intros l2 Hs1 Hs2 Hext.
  - destruct l2 as [|b l2]; [done|]. assert (Hb : b ∈ []) by (apply Hext; left).
    by apply elem_of_nil in Hb.
  - destruct l2 as [|b l2].
    + assert (Ha : a ∈ []) by (apply Hext; left). by apply elem_of_nil in Ha.
    + apply strictly_increasing_cons_inv in Hs1 as [Hs1 Hall1].
      apply strictly_increasing_cons_inv in Hs2 as [Hs2 Hall2].
      assert (Hab : a = b).
      { assert (Ha : a ∈ b :: l2) by (apply Hext; left).
        assert (Hb : b ∈ a :: l1) by (apply Hext; left).
        apply elem_of_cons in Ha as [?|Ha]; [done|].
        apply elem_of_cons in Hb as [?|Hb]; [done|].
        specialize (Hall1 _ Hb). specialize (Hall2 _ Ha). lia. }
      subst b. f_equal. apply IH; [done..|].
      intros x. split; intros Hx.
      * assert (Hx' : x ∈ a :: l2) by (apply Hext; by right).
        apply elem_of_cons in Hx' as [->|?]; [|done]. specialize (Hall1 _ Hx). lia.
      * assert (Hx' : x ∈ a :: l1) by (apply Hext; by right).
        apply elem_of_cons in Hx' as [->|?]; [|done]. specialize (Hall2 _ Hx). lia.
Qed.

Lemma removeFileId_addFileId x l :
  strictly_increasing l → x ∉ l → removeFileId x (addFileId x l) = l.
Proof.
  intros Hs Hx. apply strictly_increasing_ext; [|done|].
  - by apply removeFileId_sorted, addFileId_sorted.
  - intros y. rewrite elem_of_removeFileId by (by apply addFileId_sorted).
    rewrite elem_of_addFileId. split; [intros [[?|?] ?]; done|].
    intros Hy. split; [by right|]. by intros ->.
Qed.

Lemma addFileId_removeFileId x l :
  strictly_increasing l → x ∈ l → addFileId x (removeFileId x l) = l.
Proof.
  intros Hs Hx. apply strictly_increasing_ext; [|done|].
  - by apply addFileId_sorted, removeFileId_sorted.
  - intros y. rewrite elem_of_addFileId, elem_of_removeFileId by done.
    split; [intros [->|[? ?]]; done|].
    intros Hy. destruct (decide (y = x)); [by left|by right].
Qed.

Lemma addFileId_comm x y l :
  strictly_increasing l → addFileId x (addFileId y l) = addFileId y (addFileId x l).
Proof.
  intros Hs. apply strictly_increasing_ext; [by do 2 apply addFileId_sorted..|].
  intros z. rewrite !elem_of_addFileId. tauto.
Qed.

Lemma length_addFileId x l :
  strictly_increasing l →
  length (addFileId x l) = if bool_decide (x ∈ l) then length l else S (length l).
Proof.
  intros Hs. case_bool_decide as Hx; [by rewrite addFileId_present|].
  clear Hs. induction l as [|z l IH]; [done|].
  apply not_elem_of_cons in Hx as [Hne Hx]. rewrite addFileId_cons.
  destruct (z <? x); [simpl; by rewrite IH|].
  destruct (z =? x) eqn:Heq; [apply Z.eqb_eq in Heq; congruence|done].
Qed.

Lemma length_removeFileId x l :
  strictly_increasing l →
  length (removeFileId x l) = if bool_decide (x ∈ l) then pred (length l) else length l.
Proof.
  intros Hs. case_bool_decide as Hx; [|by rewrite removeFileId_absent].
  induction l as [|z l IH]; [by apply elem_of_nil in Hx|].
  apply strictly_increasing_cons_inv in Hs as [Hs Hall]. rewrite removeFileId_cons.
  destruct (z <? x) eqn:Hlt.
  - apply Z.ltb_lt in Hlt. apply elem_of_cons in Hx as [->|Hx]; [lia|].
    simpl. rewrite IH by done. destruct l; [by apply elem_of_nil in Hx|done].
  - apply Z.ltb_ge in Hlt. destruct (z =? x) eqn:Heq; [done|].
    apply Z.eqb_neq in Heq. apply elem_of_cons in Hx as [->|Hx]; [done|].
    specialize (Hall _ Hx). lia.
Qed.

End PostingListRoundTrip.

(** X8. A posting list built by [addFileId] and [removeFileId] depends only
    on the set of ids it holds: two such lists with the same ids are the same
    vector, so insertions commute.  Inserting an absent id and removing it
    again, or removing a present id and inserting it again, gives the list
    back; [size] grows by one exactly when an absent id is inserted and
    shrinks by one exactly when a present id is removed. *)
Theorem posting_list_round_trip :
  ∀ (ops : list list_op) (x y : Z),
    let l := apply_ops ops in
    (∀ ops', (∀ z, z ∈ apply_ops ops' ↔ z ∈ l) → apply_ops ops' = l) ∧
    addFileId x (addFileId y l) = addFileId y (addFileId x l) ∧
    (x ∉ l → removeFileId x (addFileId x l) = l) ∧
    (x ∈ l → addFileId x (removeFileId x l) = l) ∧
    MemoryUsage.size (addFileId x l)
    = (if bool_decide (x ∈ l) then MemoryUsage.size l else S (MemoryUsage.size l)) ∧
    MemoryUsage.size (removeFileId x l)
    = (if bool_decide (x ∈ l) then pred (MemoryUsage.size l) else MemoryUsage.size l).
Proof.
  intros ops x y l.
  assert (Hs : strictly_increasing l) by (apply foldl_apply_op_sorted; constructor).
  split.
  { intros ops' Hext. apply strictly_increasing_ext; [|done..].
    apply foldl_apply_op_sorted. constructor. }
  split; [by apply addFileId_comm|].
  split; [by apply removeFileId_addFileId|].
  split; [by apply addFileId_removeFileId|].
  split; [by apply length_addFileId|by apply length_removeFileId].
Qed.

Lemma posting_list_round_trip_witness :
  let l := apply_ops [Insert 5; Insert 2; Erase 9] in
  ((7 ∉ l) ∧ 5 ∈ l) ∧
  removeFileId 7 (addFileId 7 l) = l ∧ addFileId 5 (removeFileId 5 l) = l.
Proof.
  assert (H7 : 7 ∉ apply_ops [Insert 5; Insert 2; Erase 9]).
  { intros [H|[H|H]%elem_of_cons]%elem_of_cons; [discriminate..|].
    by apply elem_of_nil in H. }
  assert (H5 : 5 ∈ apply_ops [Insert 5; Insert 2; Erase 9]) by (right; left).
  split; [split; [exact H7|exact H5]|].
  destruct (posting_list_round_trip [Insert 5; Insert 2; Erase 9] 7 0)
    as (_ & _ & Hra & _).
  destruct (posting_list_round_trip [Insert 5; Insert 2; Erase 9] 5 0)
    as (_ & _ & _ & Har & _).
  split; [exact (Hra H7)|exact (Har H5)].
Defined.

Section IndexRoundTrip.

Import InvertedIndex.







End IndexRoundTrip.

Section TreeRoundTrip.

Import FileSystemSimulator.

Lemma set_id key c cs : Children.find key cs = Some c → Children.set key c cs = cs.
Proof.
  induction cs as [|[k c'] cs IH]; [done|]. rewrite find_cons, set_cons.
  destruct (String.eqb k key); [by intros [= ->]|]. intros ?. by rewrite IH.
Qed.

Lemma with_children_id node : with_children node (children node) = node.
Proof. by destruct node. Qed.






End TreeRoundTrip.



Section PathNormalisation.

Import FileSystemSimulator.

Lemma removeFile_walk_parts p p' fs :
  accepted p → accepted p' → walk_parts p = walk_parts p' →
  findFileNode p (root fs) = findFileNode p' (root fs) ∧ removeFile p fs = removeFile p' fs.
Proof.
  intros Hp Hp' Heq.
  assert (Hfind : findFileNode p (root fs) = findFileNode p' (root fs))
    by (by rewrite !findFileNode_accepted, Heq).
  split; [done|]. unfold removeFile. by rewrite Hfind, Heq.
Qed.

Lemma walk_parts_trailing p : accepted p → walk_parts (p +:+ "/") = walk_parts p.
Proof. intros Hp. rewrite walk_parts_app by done. simpl. by rewrite app_nil_r. Qed.

Lemma walk_parts_doubled a b :
  accepted a → walk_parts (a +:+ "//" +:+ b) = walk_parts (a +:+ "/" +:+ b).
Proof.
  intros Ha.
  change (a +:+ "//" +:+ b) with (a +:+ String delimiter (String delimiter b)).
  change (a +:+ "/" +:+ b) with (a +:+ String delimiter b).
  rewrite !walk_parts_app by done. by rewrite getline_parts_cons.
Qed.

Lemma accepted_append a b : accepted a → accepted (a +:+ b).
Proof. intros [rest ->]. rewrite append_cons. by eexists. Qed.

End PathNormalisation.

(** X10. [findFileNode] and [removeFile] read a path through its segments
    only, in every store: two paths that begin with the delimiter and have
    the same segments resolve to the same node and are removed alike; in
    particular a trailing delimiter and a doubled delimiter change nothing.
    A path that is empty or does not begin with the delimiter resolves to
    no node, and its remove returns [false] and the store as it was. *)
Theorem remove_reads_segments :
  ∀ (fs : FileSystemSimulator.t) (p p' : string),
    (accepted p → accepted p' → segments p = segments p' →
     findFileNode p (FileSystemSimulator.root fs)
     = findFileNode p' (FileSystemSimulator.root fs) ∧
     FileSystemSimulator.removeFile p fs = FileSystemSimulator.removeFile p' fs) ∧
    (accepted p →
     FileSystemSimulator.removeFile (p +:+ "/") fs = FileSystemSimulator.removeFile p fs ∧
     FileSystemSimulator.removeFile (p +:+ "//" +:+ p') fs
     = FileSystemSimulator.removeFile (p +:+ "/" +:+ p') fs) ∧
    (¬ accepted p →
     findFileNode p (FileSystemSimulator.root fs) = None ∧
     FileSystemSimulator.removeFile p fs = (false, fs)).
Proof.
  intros fs p p'. split; [|split].
  - intros Hp Hp' Heq. apply removeFile_walk_parts; [done..|].
    by rewrite !walk_parts_segments.
  - intros Hp. split.
    + apply removeFile_walk_parts; [by apply accepted_append|done|].
      by apply walk_parts_trailing.
    + apply removeFile_walk_parts; [by apply accepted_append..|].
      by apply walk_parts_doubled.
  - intros Hna. pose proof (findFileNode_rejected p (FileSystemSimulator.root fs) Hna).
    split; [done|]. by apply removeFile_not_found.
Qed.

Lemma remove_reads_segments_witness :
  let fs := FileSystemSimulator.run FileSystemSimulator.init
              [FileSystemSimulator.Add "/home/u1" "a.jpg" ".jpg" 200000 "u1" "2024-01-15"] in
  (accepted "/home//u1/a.jpg/" ∧ accepted "/home/u1/a.jpg" ∧
   segments "/home//u1/a.jpg/" = segments "/home/u1/a.jpg") ∧
  FileSystemSimulator.removeFile "/home//u1/a.jpg/" fs
  = FileSystemSimulator.removeFile "/home/u1/a.jpg" fs.
Proof.
  assert (H1 : accepted "/home//u1/a.jpg/") by (by eexists).
  assert (H2 : accepted "/home/u1/a.jpg") by (by eexists).
  assert (H3 : segments "/home//u1/a.jpg/" = segments "/home/u1/a.jpg") by reflexivity.
  split; [split; [exact H1|split; [exact H2|exact H3]]|].
  destruct (remove_reads_segments
              (FileSystemSimulator.run FileSystemSimulator.init
                 [FileSystemSimulator.Add "/home/u1" "a.jpg" ".jpg" 200000 "u1" "2024-01-15"])
              "/home//u1/a.jpg/" "/home/u1/a.jpg") as [Hsame _].
  exact (proj2 (Hsame H1 H2 H3)).
Defined.

Section EnsurePath.

Implicit Types (cs : list (string * DirectoryNode)) (key seg : string)
  (node current c : DirectoryNode) (segs keys : list string).

(** Walking a path that is there creates nothing. *)
Lemma create_along_existing segs current node :
  node_at segs current = Some node → create_along segs (fun n => n) current = current.
Proof.
  revert current. induction segs as [|seg segs IH]; intros current Hat; [done|].
  cbn [node_at] in Hat. cbn [create_along].
  destruct (Children.find seg (children current)) as [c|] eqn:Hfind; [|done].
  simpl. rewrite (IH _ Hat), set_id by done. apply with_children_id.
Qed.

(** Walking and creating keeps every node that was there, with its name,
    kind and record. *)
Lemma node_at_create_along_mono segs current keys node :
  node_at keys current = Some node →
  ∃ node', node_at keys (create_along segs (fun n => n) current) = Some node' ∧
           name node' = name node ∧ isDirectory node' = isDirectory node ∧
           fileData node' = fileData node.
Proof.
  revert current keys node.
  induction segs as [|seg segs IH]; intros current keys node Hat; [by exists node|].
  cbn [create_along]. destruct keys as [|key keys].
  - injection Hat as <-. eexists. split; [done|]. done.
  - cbn [node_at] in Hat |- *. simpl.
    destruct (Children.find key (children current)) as [c|] eqn:Hfind; [|done].
    destruct (decide (key = seg)) as [->|Hne].
    + rewrite find_set_eq, Hfind. simpl. by apply IH.
    + rewrite find_set_ne, Hfind by done. by exists node.
Qed.

(** What walking and creating adds: a node that is there afterwards was there
    before, with its name, kind and record, or it is a new directory without
    a record, named by the last of its keys, on the way along the segments. *)
Lemma node_at_create_along_new segs : ∀ current keys node',
  node_at keys (create_along segs (fun n => n) current) = Some node' →
  (∃ node, node_at keys current = Some node ∧
           name node' = name node ∧ isDirectory node' = isDirectory node ∧
           fileData node' = fileData node) ∨
  (node_at keys current = None ∧ isDirectory node' = true ∧ fileData node' = None ∧
   last keys = Some (name node') ∧ keys `prefix_of` segs).
Proof.
  induction segs as [|seg segs IH]; intros current keys node' Hat.
  { left. by exists node'. }
  cbn [create_along] in Hat. destruct keys as [|key keys].
  { injection Hat as <-. left. by exists current. }
  cbn [node_at] in Hat |- *. unfold with_children in Hat. cbn [children] in Hat.
  destruct (decide (key = seg)) as [->|Hne].
  - rewrite find_set_eq in Hat. apply IH in Hat.
    destruct (Children.find seg (children current)) as [c|] eqn:Hfind; cbn [default] in Hat.
    + destruct Hat as [Hold|(Hnone & Hdir & Hdata & Hlast & Hpre)]; [by left|].
      right. split; [done|]. split; [done|]. split; [done|]. split.
      * rewrite last_cons, Hlast. done.
      * by apply prefix_cons.
    + right. split; [done|].
      destruct Hat as [(node & Hnode & Hn & Hd & Hf)|(Hnone & Hdir & Hdata & Hlast & Hpre)].
      * destruct keys as [|key' keys]; [|done]. injection Hnode as <-.
        split; [done|]. split; [done|]. split; [by rewrite Hn|].
        apply prefix_cons, prefix_nil.
      * split; [done|]. split; [done|]. split.
        { rewrite last_cons, Hlast. done. }
        by apply prefix_cons.
  - rewrite find_set_ne in Hat by done. left.
    destruct (Children.find key (children current)) as [c|]; [|done]. by exists node'.
Qed.

(** Walking and creating adds no record. *)
Lemma create_along_no_record segs current :
  wf_node current →
  traverseAndFilter (create_along segs (fun n => n) current) ≡ₚ traverseAndFilter current.
Proof.
  intros Hwf. destruct (create_along_records segs current Hwf) as (ctx & Hctx & Hk).
  by rewrite (Hk (fun n => n)), Hctx.
Qed.

End EnsurePath.

(** X11. [getOrCreatePath] alone (the caller changing nothing through the
    pointer it gets back) only ever adds directories.  For a path that
    begins with the delimiter: the call succeeds; afterwards [findFileNode]
    resolves the path; a second call changes nothing; if the path resolved
    before, the first call changes nothing either; every path that resolved
    before still resolves, to a node of the same name, kind and record; a
    path that resolves afterwards and did not before leads to a directory
    without a record, named by the last segment of that path, whose segments
    begin the segments of the path walked; and the traversal finds the
    records it found before, no more and no fewer. *)
Theorem getOrCreatePath_only_adds :
  ∀ (path : string) (root : DirectoryNode),
    accepted path →
    ∃ root',
      getOrCreatePath path (fun n => n) root = Some root' ∧
      findFileNode path root' = Some (path_node (walk_parts path) root) ∧
      getOrCreatePath path (fun n => n) root' = Some root' ∧
      (∀ node, findFileNode path root = Some node → root' = root) ∧
      (∀ p node, findFileNode p root = Some node →
         ∃ node', findFileNode p root' = Some node' ∧
                  name node' = name node ∧ isDirectory node' = isDirectory node ∧
                  fileData node' = fileData node) ∧
      (∀ p node', findFileNode p root' = Some node' →
         (∃ node, findFileNode p root = Some node ∧
                  name node' = name node ∧ isDirectory node' = isDirectory node ∧
                  fileData node' = fileData node) ∨
         (findFileNode p root = None ∧ isDirectory node' = true ∧ fileData node' = None ∧
          last (walk_parts p) = Some (name node') ∧
          walk_parts p `prefix_of` walk_parts path)) ∧
      (wf_node root → traverseAndFilter root' ≡ₚ traverseAndFilter root).
Proof.
  intros path root Hacc. rewrite getOrCreatePath_accepted by done.
  eexists. split; [done|].
  assert (Hat : node_at (walk_parts path)
                  (create_along (walk_parts path) (fun n => n) root)
                = Some (path_node (walk_parts path) root))
    by apply (node_at_create_along (fun n => n)).
  split; [by rewrite findFileNode_accepted|]. split.
  - rewrite getOrCreatePath_accepted by done. f_equal. by eapply create_along_existing.
  - split; [|split; [|split]].
    + intros node Hfind. apply findFileNode_Some in Hfind as [_ Hfind].
      by eapply create_along_existing.
    + intros p node Hfind. apply findFileNode_Some in Hfind as [Hp Hfind].
      rewrite findFileNode_accepted by done. by apply node_at_create_along_mono.
    + intros p node' Hfind. apply findFileNode_Some in Hfind as [Hp Hfind].
      rewrite findFileNode_accepted by done. by apply node_at_create_along_new.
    + apply create_along_no_record.
Qed.

Lemma getOrCreatePath_only_adds_witness :
  accepted "/home/u1" ∧
  ∃ root',
    getOrCreatePath "/home/u1" (fun n => n) (mkNode "/" true None []) = Some root' ∧
    getOrCreatePath "/home/u1" (fun n => n) root' = Some root' ∧
    isDirectory <$> findFileNode "/home" root' = Some true.
Proof.
  assert (H : accepted "/home/u1") by (by eexists).
  split; [exact H|].
  destruct (getOrCreatePath_only_adds "/home/u1" (mkNode "/" true None []) H)
    as (root' & H1 & _ & H3 & _ & _ & Hnew & _).
  exists root'. split; [exact H1|]. split; [exact H3|].
  destruct (findFileNode "/home" root') as [node'|] eqn:Hfind.
  - destruct (Hnew "/home" node' Hfind) as [(node & Hold & _)|(_ & Hdir & _)].
    + discriminate Hold.
    + simpl. f_equal. exact Hdir.
  - rewrite getOrCreatePath_accepted in H1 by exact H. injection H1 as <-.
    discriminate Hfind.
Defined.

Section Counts.

Import InvertedIndex FileSystemSimulator.













End Counts.

Section Usage.

Import InvertedIndex FileSystemSimulator MemoryUsage.





Variable p : platform.
Hypothesis modulus_pos : 0 < size_t_modulus p.








End Usage.



Section FreshNames.

Import FileSystemSimulator.
Implicit Types (N D : list string) (cs : list (string * DirectoryNode))
  (node current c : DirectoryNode) (segs keys : list string).

(** Induction on a tree, the children of a node taken together. *)
Lemma DirectoryNode_ind (P : DirectoryNode → Prop) :
  (∀ nm isDir data cs, Forall (fun kc => P kc.2) cs → P (mkNode nm isDir data cs)) →
  ∀ node, P node.
Proof.
  intros H. fix IH 1. intros [nm isDir data cs]. apply H.
  induction cs as [|[k c] cs IHcs]; constructor; [apply IH|apply IHcs].
Qed.

Lemma shaped_inv N D node :
  shaped N D node →
  Forall (fun kc => (isDirectory kc.2 = true → kc.1 ∈ D) ∧
                    (isDirectory kc.2 = false → kc.1 ∈ N ∧ children kc.2 = []) ∧
                    shaped N D kc.2) (children node).
Proof. by inversion 1. Qed.

Lemma shaped_intro N D node :
  Forall (fun kc => (isDirectory kc.2 = true → kc.1 ∈ D) ∧
                    (isDirectory kc.2 = false → kc.1 ∈ N ∧ children kc.2 = []) ∧
                    shaped N D kc.2) (children node) →
  shaped N D node.
Proof. destruct node. by constructor. Qed.

Lemma shaped_weaken N D N' D' node :
  (∀ s, s ∈ N → s ∈ N') → (∀ s, s ∈ D → s ∈ D') → shaped N D node → shaped N' D' node.
Proof.
  intros HN HD. induction node as [nm isDir data cs IH] using DirectoryNode_ind.
  intros Hs%shaped_inv. constructor. simpl in Hs.
  induction cs as [|[k c] cs IHcs]; [constructor|].
  inversion IH as [|? ? Hc IH']; subst. inversion Hs as [|? ? (Hd & Hf & Hsc) Hs']; subst.
  constructor; [|by apply IHcs]. simpl in *.
  split; [auto|]. split; [|auto]. intros Hfile. destruct (Hf Hfile). auto.
Qed.

Lemma shaped_child N D node key c :
  shaped N D node → Children.find key (children node) = Some c →
  (isDirectory c = true → key ∈ D) ∧
  (isDirectory c = false → key ∈ N ∧ children c = []) ∧ shaped N D c.
Proof.
  intros Hs%shaped_inv Hfind%find_Some_elem.
  rewrite Forall_forall in Hs. apply (Hs (key, c) Hfind).
Qed.

Lemma shaped_new_directory N D seg : shaped N D (new_directory seg).
Proof. constructor. constructor. Qed.

(** A child stored under a name that is no file name is a directory. *)
Lemma shaped_default_child N D node seg :
  shaped N D node → seg ∉ N →
  let child := default (new_directory seg) (Children.find seg (children node)) in
  isDirectory child = true ∧ shaped N D child.
Proof.
  intros Hs Hseg. destruct (Children.find seg (children node)) as [c|] eqn:Hfind; simpl.
  - destruct (shaped_child _ _ _ _ _ Hs Hfind) as (_ & Hf & Hsc). split; [|done].
    destruct (isDirectory c) eqn:Hc; [done|]. by destruct (Hf eq_refl).
  - split; [done|apply shaped_new_directory].
Qed.

Lemma shaped_path_node N D segs current :
  shaped N D current → (∀ s, s ∈ segs → s ∉ N) → shaped N D (path_node segs current).
Proof.
  revert current. induction segs as [|seg segs IH]; intros current Hs Hsegs; [done|].
  simpl. apply IH.
  - apply shaped_default_child; [done|]. apply Hsegs. left.
  - intros s Hin. apply Hsegs. by right.
Qed.

Lemma shaped_create_along N D segs k current :
  shaped N D current → (∀ s, s ∈ segs → (s ∉ N) ∧ s ∈ D) →
  (∀ n, shaped N D n → shaped N D (k n)) → (∀ n, isDirectory (k n) = isDirectory n) →
  shaped N D (create_along segs k current).
Proof.
  intros Hs Hsegs Hk Hdir. revert current Hs.
  induction segs as [|seg segs IH]; intros current Hs; [by apply Hk|].
  cbn [create_along].
  destruct (Hsegs seg ltac:(left)) as [HsegN HsegD].
  destruct (shaped_default_child N D current seg Hs HsegN) as [Hcd Hcs].
  apply shaped_intro. simpl. apply Forall_set; [by apply shaped_inv|]. simpl.
  assert (Hsegs' : ∀ s, s ∈ segs → (s ∉ N) ∧ s ∈ D) by (intros s ?; apply Hsegs; by right).
  rewrite isDirectory_create_along by done. rewrite Hcd.
  split; [done|]. split; [done|]. by apply IH.
Qed.

Lemma shaped_attach N D fileName file node :
  fileName ∈ N → shaped N D node →
  shaped N D (attach fileName (mkNode fileName false (Some file) []) node).
Proof.
  intros Hin Hs. apply shaped_intro. simpl. apply Forall_set; [by apply shaped_inv|].
  simpl. split; [done|]. split; [done|]. constructor. constructor.
Qed.




(** With a new file name the target directory has no child of that name. *)
Lemma shaped_add_keeps N D path fileName fs :
  shaped N D (root fs) → fileName ∉ N → fileName ∉ D →
  (∀ seg, seg ∈ walk_parts path → seg ∉ N) →
  add_keeps path fileName fs.
Proof.
  intros Hs HN HD Hsegs. unfold add_keeps, child_records.
  pose proof (shaped_path_node N D _ _ Hs Hsegs) as Hpn.
  destruct (Children.find fileName _) as [c|] eqn:Hfind; [|done].
  destruct (shaped_child _ _ _ _ _ Hpn Hfind) as (Hd & Hf & _).
  destruct (isDirectory c); [by destruct HD; apply Hd|by destruct HN; apply Hf].
Qed.


Lemma shaped_addFile N D path fileName ext size own time fs :
  shaped N D (root fs) → fileName ∉ walk_parts path →
  (∀ seg, seg ∈ walk_parts path → seg ∉ N) →
  shaped (fileName :: N) (walk_parts path ++ D)
    (root (addFile path fileName ext size own time fs).2).
Proof.
  intros Hs Hname Hsegs.
  assert (Hs' : shaped (fileName :: N) (walk_parts path ++ D) (root fs)).
  { eapply shaped_weaken; [| |done]; intros s Hin; [by right|].
    apply elem_of_app. by right. }
  destruct (accepted_dec path) as [Hacc|Hna]; [|by rewrite addFile_rejected].
  rewrite addFile_accepted by done. cbn [snd root]. cbv zeta.
  apply shaped_create_along; [done| | |done].
  - intros s Hin. split; [|apply elem_of_app; by left].
    intros [->|HinN]%elem_of_cons; [done|]. by apply (Hsegs s).
  - intros n Hn. apply shaped_attach; [left|done].
Qed.



Lemma shaped_init : shaped [] [] (root init).
Proof. constructor. constructor. Qed.

End FreshNames.



Section GeneratedData.

Import FileSystemSimulator TestData.
Implicit Types (N D : list string) (gen : Z → draws).

Lemma file_name_inj i j : "file" +:+ to_string i = "file" +:+ to_string j → i = j.
Proof.
  rewrite !append_cons, !append_nil_l. intros [= H]. by apply (inj pretty) in H.
Qed.

Lemma paths_lookup k path :
  paths !! k = Some path →
  accepted path ∧ back path ≠ Some delimiter ∧
  ∀ s, s ∈ walk_parts path → s ∈ ["home"; "user1"; "user2"; "documents"; "pictures"; "videos"].
Proof.
  intros Hk.
  assert (Hpath : path ∈ paths) by (by eapply list_elem_of_lookup_2).
  unfold paths in Hpath. rewrite !elem_of_cons, elem_of_nil in Hpath.
  destruct Hpath as [->|[->|[->|[->|[->|[]]]]]];
    (split; [by eexists|split; [by vm_compute|]]); intros s;
    match goal with |- context [walk_parts ?p] =>
      let l := eval vm_compute in (walk_parts p) in change (walk_parts p) with l end;
    rewrite !elem_of_cons, !elem_of_nil; tauto.
Qed.

Lemma file_name_no_directory i s :
  s ∈ ["home"; "user1"; "user2"; "documents"; "pictures"; "videos"] →
  s ≠ "file" +:+ to_string i.
Proof.
  rewrite !elem_of_cons, elem_of_nil, !append_cons.
  intros [->|[->|[->|[->|[->|[->|[]]]]]]]; discriminate.
Qed.

Lemma round_in_bounds i d fs :
  in_bounds d →
  ∃ ext own path,
    extensions !! extDist d = Some ext ∧ owners !! ownerDist d = Some own ∧
    paths !! pathDist d = Some path ∧
    round i d fs =
      Some (IntCounter.addFile path ("file" +:+ to_string i) ext (sizeDist d) own
              ((("2024-" +:+ to_string (Z.rem i 12 + 1)) +:+ "-") +:+
               to_string (Z.rem i 28 + 1)) fs).2.
Proof.
  intros (He & Ho & Hp & _).
  apply lookup_lt_is_Some_2 in He as [ext He].
  apply lookup_lt_is_Some_2 in Ho as [own Ho].
  apply lookup_lt_is_Some_2 in Hp as [path Hp].
  exists ext, own, path. unfold round. by rewrite He, Ho, Hp.
Qed.

Lemma loop_generates rounds : ∀ i gen fs N D,
  0 ≤ i →
  i + Z.of_nat rounds < IntCounter.INT_MAX →
  (∀ j, i ≤ j < i + Z.of_nat rounds → in_bounds (gen j)) →
  store_inv fs → tree_complete fs → shaped N D (root fs) →
  (∀ s, s ∈ N → ∃ j, j < i ∧ s = "file" +:+ to_string j) →
  (∀ s, s ∈ D → s ∈ ["home"; "user1"; "user2"; "documents"; "pictures"; "videos"]) →
  nextFileId fs = i + 1 →
  ∃ fs', loop rounds i gen fs = Some fs' ∧
         store_inv fs' ∧ tree_complete fs' ∧
         nextFileId fs' = i + Z.of_nat rounds + 1 ∧
         getTotalFiles fs' = (getTotalFiles fs + rounds)%nat ∧
         (∀ id r, fileMetadataMap fs !! id = Some r → fileMetadataMap fs' !! id = Some r) ∧
         (∀ j, i ≤ j < i + Z.of_nat rounds →
               ∃ r, fileMetadataMap fs' !! (j + 1) = Some r ∧ generated gen j r).
Proof.
  induction rounds as [|rounds IH]; intros i gen fs N D Hi Hint Hgen Hinv Hcomp Hshape HN HD Hnext.
  - exists fs. cbn [loop]. split; [done|]. split; [done|]. split; [done|].
    split; [lia|]. split; [lia|]. split; [done|]. intros j Hj. lia.
  - destruct (round_in_bounds i (gen i) fs) as (ext & own & path & He & Ho & Hp & Hround).
    { apply Hgen. lia. }
    destruct (paths_lookup _ _ Hp) as (Hacc & Hback & Hsegs).
    rewrite IntCounter_addFile_exact in Hround
      by (rewrite Hnext; unfold IntCounter.INT_MIN; lia).
    set (fileName := "file" +:+ to_string i) in *.
    set (time := (("2024-" +:+ to_string (Z.rem i 12 + 1)) +:+ "-") +:+
                 to_string (Z.rem i 28 + 1)) in *.
    set (fs1 := (addFile path fileName ext (sizeDist (gen i)) own time fs).2) in *.
    assert (HnameN : fileName ∉ N).
    { intros Hin. destruct (HN _ Hin) as (j & Hj & Heq). apply file_name_inj in Heq. lia. }
    assert (HnameD : fileName ∉ D).
    { intros Hin. by apply (file_name_no_directory i _ (HD _ Hin)). }
    assert (Hown : fileName ∉ walk_parts path).
    { intros Hin. by apply (file_name_no_directory i _ (Hsegs _ Hin)). }
    assert (HsegsN : ∀ seg, seg ∈ walk_parts path → seg ∉ N).
    { intros seg Hseg Hin. destruct (HN _ Hin) as (j & _ & ->).
      by apply (file_name_no_directory j _ (Hsegs _ Hseg)). }
    assert (Htable1 : fileMetadataMap fs1 =
              <[i + 1 := newFileData path fileName ext (sizeDist (gen i)) own time fs]>
                (fileMetadataMap fs)).
    { unfold fs1. rewrite addFile_accepted by done. cbn [snd fileMetadataMap]. cbv zeta.
      by rewrite fileId_newFileData, Hnext. }
    assert (Hnext1 : nextFileId fs1 = (i + 1) + 1).
    { unfold fs1. rewrite addFile_accepted by done. cbn [snd nextFileId]. lia. }
    destruct (IH (i + 1) gen fs1 (fileName :: N) (walk_parts path ++ D))
      as (fs' & Hloop & Hinv' & Hcomp' & Hnext' & Htotal' & Hkeep' & Hgen'); try done.
    + lia.
    + lia.
    + intros j Hj. apply Hgen. lia.
    + by apply store_inv_addFile.
    + apply tree_complete_addFile; [done..|]. intros _. by eapply shaped_add_keeps.
    + by apply shaped_addFile.
    + intros s [->|Hin]%elem_of_cons.
      * exists i. split; [lia|done].
      * destruct (HN _ Hin) as (j & Hj & ->). exists j. split; [lia|done].
    + intros s [Hin|Hin]%elem_of_app; [by apply Hsegs|by apply HD].
    + exists fs'. cbn [loop]. rewrite Hround. cbn [mbind option_bind]. fold fs1.
      split; [done|]. split; [done|]. split; [done|]. split; [lia|].
      split.
      { rewrite Htotal'. unfold fs1. rewrite getTotalFiles_addFile by done. lia. }
      split.
      { intros id r Hr. apply Hkeep'. rewrite Htable1.
        rewrite lookup_insert_ne; [done|]. intros <-.
        pose proof (store_inv_fresh _ Hinv) as Hfresh. rewrite Hnext in Hfresh. congruence. }
      intros j Hj. destruct (decide (j = i)) as [->|Hne].
      * eexists. split.
        { apply Hkeep'. rewrite Htable1. apply lookup_insert_eq. }
        unfold generated, newFileData.
        cbn [fileId fileName extension owner fileSize createTime fullPath].
        rewrite Hnext. rewrite bool_decide_eq_false_2 by done.
        unfold time. rewrite !Z.rem_mod_nonneg by lia.
        split; [done|]. split; [done|]. split; [done|]. split; [done|]. split; [done|].
        split; [by rewrite !append_assoc|].
        exists path. by split.
      * apply Hgen'. lia.
Qed.

End GeneratedData.

(** X14. The generated test data.  On the fresh store, for a number of
    files below [INT_MAX] and whatever the distributions return within their
    bounds, [generateTestData numFiles] completes; afterwards the counter is
    one past the number of rounds and the table holds one record per round
    (none for a negative [numFiles]); the record of round [i] has the id
    [i + 1], the name [file<i>], the drawn extension, owner and size, a
    month in 1..12 and a day in 1..28, and the full path of the drawn
    directory joined with the name by one slash; and the traversal query
    and the indexed query return the same records for every extension. *)
Theorem generateTestData_on_fresh_store :
  ∀ (numFiles : Z) (gen : Z → TestData.draws) (ext : string),
    numFiles < IntCounter.INT_MAX →
    (∀ i, 0 ≤ i < numFiles → TestData.in_bounds (gen i)) →
    ∃ fs, TestData.generateTestData numFiles gen FileSystemSimulator.init = Some fs ∧
          FileSystemSimulator.nextFileId fs = Z.max 0 numFiles + 1 ∧
          FileSystemSimulator.getTotalFiles fs = Z.to_nat numFiles ∧
          (∀ i, 0 ≤ i < numFiles →
                ∃ r, FileSystemSimulator.fileMetadataMap fs !! (i + 1) = Some r ∧
                     TestData.generated gen i r) ∧
          (∀ r, r ∈ FileSystemSimulator.queryByExtensionTraditional ext fs ↔
                r ∈ FileSystemSimulator.queryByExtensionIndexed ext fs) ∧
          fileId <$> FileSystemSimulator.queryByExtensionTraditional ext fs
          ≡ₚ fileId <$> FileSystemSimulator.queryByExtensionIndexed ext fs.
Proof.
  intros numFiles gen ext Hint Hgen.
  destruct (loop_generates (Z.to_nat numFiles) 0 gen FileSystemSimulator.init [] [])
    as (fs & Hloop & Hinv & Hcomp & Hnext & Htotal & _ & Hrec).
  - lia.
  - unfold IntCounter.INT_MAX in *. lia.
  - intros j Hj. apply Hgen. lia.
  - apply store_inv_init.
  - apply tree_complete_init.
  - apply shaped_init.
  - intros s Hin. by apply elem_of_nil in Hin.
  - intros s Hin. by apply elem_of_nil in Hin.
  - reflexivity.
  - exists fs. split; [done|]. split; [lia|]. split; [by rewrite Htotal|].
    split; [intros i Hi; apply Hrec; lia|]. by apply queries_agree.
Qed.

Lemma generateTestData_on_fresh_store_witness :
  let gen := fun i => TestData.mk_draws (Z.to_nat (i mod 7)) (Z.to_nat (i mod 5))
                        (Z.to_nat (i mod 5)) (1024 + i) in
  (6 < IntCounter.INT_MAX ∧ ∀ i, 0 ≤ i < 6 → TestData.in_bounds (gen i)) ∧
  ∃ fs, TestData.generateTestData 6 gen FileSystemSimulator.init = Some fs ∧
        FileSystemSimulator.getTotalFiles fs = 6%nat.
Proof.
  intros gen.
  assert (Hint : 6 < IntCounter.INT_MAX) by reflexivity.
  assert (Hgen : ∀ i, 0 ≤ i < 6 → TestData.in_bounds (gen i)).
  { intros i Hi. unfold TestData.in_bounds, gen.
    cbn [TestData.extDist TestData.ownerDist TestData.pathDist TestData.sizeDist].
    unfold TestData.extensions, TestData.owners, TestData.paths. cbn [length].
    pose proof (Z.mod_pos_bound i 7 ltac:(lia)). pose proof (Z.mod_pos_bound i 5 ltac:(lia)).
    lia. }
  split; [split; [exact Hint|exact Hgen]|].
  destruct (generateTestData_on_fresh_store 6 gen ".jpg" Hint Hgen)
    as (fs & Hrun & _ & Htotal & _).
  exists fs. split; [exact Hrun|exact Htotal].
Defined.

Section IntCounterRange.

Import FileSystemSimulator.

Lemma wrap_range n : IntCounter.INT_MIN ≤ IntCounter.wrap n ≤ IntCounter.INT_MAX.
Proof.
  unfold IntCounter.wrap, IntCounter.INT_MIN, IntCounter.INT_MAX.
  pose proof (Z.mod_pos_bound (n - -2147483648) (2147483647 - -2147483648 + 1) ltac:(lia)).
  lia.
Qed.

Lemma nextFileId_IntCounter_addFile path fileName ext size own time fs :
  nextFileId (IntCounter.addFile path fileName ext size own time fs).2
  = if (IntCounter.addFile path fileName ext size own time fs).1
    then IntCounter.wrap (nextFileId fs + 1) else nextFileId fs.
Proof.
  destruct (accepted_dec path) as [Hacc|Hna].
  - by rewrite IntCounter_addFile_accepted.
  - by rewrite IntCounter_addFile_rejected.
Qed.

End IntCounterRange.

(** X15. The counter as an [int].  The store whose counter is held in 32
    bits and the store that counts on the integers are the same store, with
    the same identifiers handed out, along every history that keeps the
    counter within [int]; from the fresh store the invariant of the store
    then holds of the 32-bit store.  An add never takes the 32-bit counter
    out of the range of [int]; an accepted add at [INT_MAX] stores its
    record under [INT_MAX] and leaves [INT_MIN] in the counter. *)
Theorem int_counter_exact_below_INT_MAX :
  (∀ (fs : FileSystemSimulator.t) (ops : list FileSystemSimulator.op),
     IntCounter.INT_MIN ≤ FileSystemSimulator.nextFileId fs →
     FileSystemSimulator.nextFileId fs
     + Z.of_nat (length (IntCounter.assigned_ids fs ops)) ≤ IntCounter.INT_MAX →
     IntCounter.run fs ops = FileSystemSimulator.run fs ops ∧
     IntCounter.assigned_ids fs ops = FileSystemSimulator.assigned_ids fs ops) ∧
  (∀ ops : list FileSystemSimulator.op,
     1 + Z.of_nat (length (IntCounter.assigned_ids FileSystemSimulator.init ops))
     ≤ IntCounter.INT_MAX →
     store_inv (IntCounter.run FileSystemSimulator.init ops)) ∧
  (∀ (path fileName ext : string) (size : Z) (own time : string) (fs : FileSystemSimulator.t),
     let added := IntCounter.addFile path fileName ext size own time fs in
     (IntCounter.INT_MIN ≤ FileSystemSimulator.nextFileId fs ≤ IntCounter.INT_MAX →
      IntCounter.INT_MIN ≤ FileSystemSimulator.nextFileId added.2 ≤ IntCounter.INT_MAX) ∧
     (accepted path → FileSystemSimulator.nextFileId fs = IntCounter.INT_MAX →
      added.1 = true ∧
      FileSystemSimulator.fileMetadataMap added.2 !! IntCounter.INT_MAX
      = Some (FileSystemSimulator.newFileData path fileName ext size own time fs) ∧
      FileSystemSimulator.nextFileId added.2 = IntCounter.INT_MIN)).
Proof.
  split; [apply IntCounter_run_exact|]. split.
  - intros ops Hmax.
    destruct (IntCounter_run_exact FileSystemSimulator.init ops) as [Hrun _];
      [vm_compute; discriminate|exact Hmax|].
    rewrite Hrun. apply store_inv_run.
  - intros path fileName ext size own time fs added. split.
    + intros Hrange. unfold added. rewrite nextFileId_IntCounter_addFile.
      destruct (IntCounter.addFile path fileName ext size own time fs).1;
        [apply wrap_range|done].
    + intros Hacc Hmax. unfold added. rewrite IntCounter_addFile_accepted by done.
      cbn [fst snd FileSystemSimulator.fileMetadataMap FileSystemSimulator.nextFileId].
      cbv zeta. rewrite fileId_newFileData, Hmax.
      split; [done|]. split; [apply lookup_insert_eq|apply wrap_past_INT_MAX].
Qed.

Lemma int_counter_exact_below_INT_MAX_witness :
  let ops := [FileSystemSimulator.Add "/home/u1" "a.jpg" ".jpg" 200000 "u1" "2024-01-15";
              FileSystemSimulator.Add "/x" "b.png" ".png" 500000 "u1" "2024-01-16"] in
  let fs := FileSystemSimulator.mk (FileSystemSimulator.root FileSystemSimulator.init) ∅
              InvertedIndex.empty_index (IntCounter.INT_MAX - 2) in
  (IntCounter.INT_MIN ≤ FileSystemSimulator.nextFileId fs ∧
   FileSystemSimulator.nextFileId fs + Z.of_nat (length (IntCounter.assigned_ids fs ops))
   ≤ IntCounter.INT_MAX) ∧
  IntCounter.run fs ops = FileSystemSimulator.run fs ops.
Proof.
  assert (Hmin : IntCounter.INT_MIN ≤
                 FileSystemSimulator.nextFileId
                   (FileSystemSimulator.mk (FileSystemSimulator.root FileSystemSimulator.init) ∅
                      InvertedIndex.empty_index (IntCounter.INT_MAX - 2)))
    by (vm_compute; discriminate).
  assert (Hmax : FileSystemSimulator.nextFileId
                   (FileSystemSimulator.mk (FileSystemSimulator.root FileSystemSimulator.init) ∅
                      InvertedIndex.empty_index (IntCounter.INT_MAX - 2))
                 + Z.of_nat (length (IntCounter.assigned_ids
                     (FileSystemSimulator.mk (FileSystemSimulator.root FileSystemSimulator.init) ∅
                        InvertedIndex.empty_index (IntCounter.INT_MAX - 2))
                     [FileSystemSimulator.Add "/home/u1" "a.jpg" ".jpg" 200000 "u1" "2024-01-15";
                      FileSystemSimulator.Add "/x" "b.png" ".png" 500000 "u1" "2024-01-16"]))
                 ≤ IntCounter.INT_MAX)
    by (vm_compute; discriminate).
  split; [split; [exact Hmin|exact Hmax]|].
  destruct int_counter_exact_below_INT_MAX as (Hexact & _).
  destruct (Hexact _ _ Hmin Hmax) as [Hrun _]. exact Hrun.
Defined.
